(** * Data Manager: the reconciliation core of [datamanager8.8.py]

    A shallow embedding of the ingestion pipeline (cell normalisation,
    header extraction, scanning and bucketing, the finalize re-read, the
    fuzzy grouping of entity names and the Community master join),
    followed by the properties of the specification that it satisfies or
    breaks.

    Conventions of the embedding:
    - a function that can raise returns an [option] or a [result]; [None]
      and [Raise] are the exception, named where it matters;
    - a workbook is read whole when [load_workbook] succeeds: an exception
      while reading a file is the failure of [load_workbook];
    - numbers that Python holds in a [float] are primitive binary64 floats,
      with their IEEE operations and comparisons;
    - a Python [set] is a [gset], handed out by [elements] in an
      unspecified order; what is proved about the grouping holds for every
      order of the values;
    - the user interface (log lines, message boxes, progress bar) is left
      out: a run is modelled by the tables it renders or the way it
      stops. *)

From Stdlib Require Import ZArith NArith Ascii String Floats Uint63.
From stdpp Require Import base option list gmap sets sorting pretty.

Set Warnings "-inexact-float,-clear-no-such-hyp".
Local Open Scope N_scope.

(** ** Python strings

    A Python [str] is a sequence of Unicode code points.  Several
    operations of the program depend on that view ([len], [strip] on the
    no-break space, the emoji of the provenance column names), so a string
    is a list of code points rather than a list of bytes. *)

Abbreviation pystr := (list N).

(** An ASCII literal as a Python string. *)
Definition lit (s : string) : pystr := N_of_ascii <$> list_ascii_of_string s.

(** [str.isspace] for one code point: the characters [str.strip()] removes. *)
Definition isspace (c : N) : bool :=
  ((9 <=? c) && (c <=? 13)) || ((28 <=? c) && (c <=? 32))
  || (c =? 133) || (c =? 160) || (c =? 5760)
  || ((8192 <=? c) && (c <=? 8202))
  || (c =? 8232) || (c =? 8233) || (c =? 8239) || (c =? 8287) || (c =? 12288).

Fixpoint lstrip (s : pystr) : pystr :=
  match s with
  | c :: s' => if isspace c then lstrip s' else s
  | [] => []
  end.

Definition rstrip (s : pystr) : pystr := reverse (lstrip (reverse s)).

(** [s.strip()] *)
Definition strip (s : pystr) : pystr := rstrip (lstrip s).

(** [s.replace(old, new)] for one-character [old] and [new]. *)
Definition replace_char (old new : N) (s : pystr) : pystr :=
  (λ c, if decide (c = old) then new else c) <$> s.

Definition NBSP : N := 160.
Definition NL : N := 10.
Definition SP : N := 32.

(** [sep.join(parts)] *)
Fixpoint join (sep : pystr) (parts : list pystr) : pystr :=
  match parts with
  | [] => []
  | [p] => p
  | p :: ps => p ++ sep ++ join sep ps
  end.

(** [s.startswith(p)] *)
Fixpoint startswith (s p : pystr) : bool :=
  match p, s with
  | [], _ => true
  | c :: p', d :: s' => if decide (c = d) then startswith s' p' else false
  | _ :: _, [] => false
  end.

(** [p in s] for strings: [p] occurs in [s] as a substring. *)
Fixpoint contains (s p : pystr) : bool :=
  startswith s p || match s with [] => false | _ :: s' => contains s' p end.

(** The order of [<] on strings: lexicographic on code points. *)
Fixpoint str_compare (a b : pystr) : comparison :=
  match a, b with
  | [], [] => Eq
  | [], _ :: _ => Lt
  | _ :: _, [] => Gt
  | x :: a', y :: b' =>
      match N.compare x y with Eq => str_compare a' b' | c => c end
  end.

Definition str_le (a b : pystr) : Prop := str_compare a b ≠ Gt.

Global Instance str_le_dec a b : Decision (str_le a b).
Proof. unfold str_le. apply _. Defined.

(** [sorted(xs)] on strings. *)
Definition sorted (xs : list pystr) : list pystr := merge_sort str_le xs.

(** The order of [sort(key=len)]. *)
Definition len_le (a b : pystr) : Prop := (length a ≤ length b)%nat.

Global Instance len_le_dec a b : Decision (len_le a b).
Proof. unfold len_le. apply _. Defined.

(** Decimal digits, zero-padded to a fixed width, as [strftime] and
    [isoformat] print the fields of a date. *)
Definition digit (n : N) : N := 48 + n `mod` 10.
Definition pad2 (n : N) : pystr := [digit (n / 10); digit n].
Definition pad4 (n : N) : pystr :=
  [digit (n / 1000); digit (n / 100); digit (n / 10); digit n].
Definition pad6 (n : N) : pystr :=
  [digit (n / 100000); digit (n / 10000); digit (n / 1000);
   digit (n / 100); digit (n / 10); digit n].

(** [str(z)] for an [int]. *)
Definition str_Z (z : Z) : pystr := lit (pretty z).

(** ** Cells and worksheets *)

Record datetime := {
  year : N; month : N; day : N;
  hour : N; minute : N; second : N; microsecond : N
}.

(** [dt.strftime('%Y-%m-%d')] *)
Definition strftime_ymd (dt : datetime) : pystr :=
  pad4 (year dt) ++ lit "-" ++ pad2 (month dt) ++ lit "-" ++ pad2 (day dt).

(** [str(dt)]: ISO format with a space, microseconds only when non-zero. *)
Definition str_datetime (dt : datetime) : pystr :=
  strftime_ymd dt ++ lit " " ++ pad2 (hour dt) ++ lit ":" ++ pad2 (minute dt)
  ++ lit ":" ++ pad2 (second dt)
  ++ (if decide (microsecond dt = 0) then [] else lit "." ++ pad6 (microsecond dt)).

(** The values [openpyxl] hands out for a cell with [values_only=True]. *)
Inductive cell :=
  | CNone
  | CStr (s : pystr)
  | CInt (z : Z)
  | CFloat (f : float)
  | CBool (b : bool)
  | CDateTime (dt : datetime).

(** Truthiness of a cell value, as [if v] and [any(r)] test it. *)
Definition truthy (v : cell) : bool :=
  match v with
  | CNone => false
  | CStr s => negb (bool_decide (s = []))
  | CInt z => negb (z =? 0)%Z
  | CFloat f => negb (PrimFloat.eqb f 0)
  | CBool b => b
  | CDateTime _ => true
  end.


(** A worksheet read with [read_only=True]: its rows, each a tuple of cell
    values, and the [max_row] its dimension record announces (possibly
    absent). *)
Record worksheet := {
  ws_rows : list (list cell);
  ws_max_row : option nat
}.

(** [ws.iter_rows(min_row=lo, max_row=hi, values_only=True)], rows counted
    from 1. *)
Definition iter_rows (ws : worksheet) (lo : nat) (hi : option nat) : list (list cell) :=
  let tl := drop (lo - 1) (ws_rows ws) in
  match hi with
  | Some h => take (h + 1 - lo) tl
  | None => tl
  end.

Record workbook := {
  wb_sheets : list (pystr * worksheet);
  wb_active : worksheet
}.

(** ** Dictionaries, tables, buckets, errors

    A Python [dict] keeps its keys in insertion order, and the program
    iterates over its dictionaries; a dictionary is an association list
    in which [od_set] replaces the value of a key that is present and
    appends a key that is new. *)
Section odict.
Context {K V : Type} `{EqDecision K}.

Fixpoint od_get (d : list (K * V)) (k : K) : option V :=
  match d with
  | [] => None
  | (k', v) :: d' => if decide (k' = k) then Some v else od_get d' k
  end.

Fixpoint od_set (d : list (K * V)) (k : K) (v : V) : list (K * V) :=
  match d with
  | [] => [(k, v)]
  | (k', v') :: d' =>
      if decide (k' = k) then (k', v) :: d' else (k', v') :: od_set d' k v
  end.
End odict.

(** A table handed to the renderer: [{"cols": ..., "rows": ...}]. *)
Record table := { t_cols : list pystr; t_rows : list (list pystr) }.

(** A bucket: [{'cols', 'rows', 'files'}], and ['header_rows'] when the
    naming dialog built it. *)
Record bucket := {
  b_cols : list pystr;
  b_rows : list (list pystr);
  b_files : list pystr;
  b_header_rows : option nat
}.

Inductive error :=
  | ColumnMismatchError (fname : pystr)
  | InvalidTemplateError (fname : pystr)
  | UnexpectedError.

Inductive result (A : Type) :=
  | Ok (a : A)
  | Raise (e : error).
Arguments Ok {A} a.
Arguments Raise {A} e.

Inductive mode := Standard | Normal | Community.

Global Instance mode_eq_dec : EqDecision mode.
Proof. solve_decision. Defined.

(** What the run reads from the form: the mode, the header-row entry
    ([None] when [int] rejects its text), the grouping switch, threshold
    and column name. *)
Record config := {
  cfg_mode : mode;
  skip_rows : option Z;
  is_fuzzy : bool;
  fuzzy_thresh : float;
  target_col_name : pystr
}.

(** How a run ends. *)
Inductive outcome :=
  | Done (named_tables : list (pystr * table))
  | Failed (e : error)
  | NoData
  | LimitExceeded
  | AwaitingNaming (buckets : list (list pystr * bucket))
  | Cancelled.

(** The state of the scanning loop. *)
Record scan_state := {
  buckets : list (list pystr * bucket);
  first_sig_standard : option (list pystr)
}.

Definition SCHNEIDER_ELECTRIC : pystr := lit "Schneider Electric".

(** The provenance column names (the first character of each is an emoji). *)
Definition SOURCE_FILE : pystr := 128196 :: lit " Source File".
Definition SOURCE_SHEET : pystr := 129534 :: lit " Source Sheet".

Definition PERSONAL_INFORMATION : pystr := lit "Personal Information".

Definition required : list pystr :=
  [PERSONAL_INFORMATION; lit "Standards Group"; lit "Internal Groups";
   lit "Association"; lit "Expertise"].

Definition COMMUNITY_MASTER : pystr := lit "Community Master".

(** [wb[s]]: [None] is the [KeyError]. *)
Definition wb_get (wb : workbook) (s : pystr) : option worksheet := od_get (wb_sheets wb) s.

(** [float(len(s))]; exact below 2^53. *)
Definition float_of_len (s : pystr) : float :=
  PrimFloat.of_uint63 (Uint63.of_Z (Z.of_nat (length s))).

(** ** The runtime the program runs against

    Library functions whose definition is not part of the repository, and
    the files on disk. *)
Class Runtime := {
  lower : pystr → pystr;
  str_float : float → pystr;
  basename : pystr → pystr;
  token_sort_ratio : pystr → pystr → float;
  load_workbook : pystr → option workbook
}.

Section DataManager.
Context `{RT : Runtime}.

(** [str(val)] *)
Definition py_str (val : cell) : pystr :=
  match val with
  | CNone => lit "None"
  | CStr s => s
  | CInt z => str_Z z
  | CFloat f => str_float f
  | CBool b => if b then lit "True" else lit "False"
  | CDateTime dt => str_datetime dt
  end.

Definition error_markers : list pystr :=
  [lit "#VALUE!"; lit "#REF!"; lit "#N/A"; lit "#DIV/0!"].

(** The cell normaliser. *)
Definition clean_cell_value (val : cell) : pystr :=
  match val with
  | CNone => []
  | CDateTime dt => strftime_ymd dt
  | _ =>
      let v := replace_char NL SP (replace_char NBSP SP (strip (py_str val))) in
      if decide (v ∈ error_markers) then [] else v
  end.

(** One header fragment: [str(v).strip().replace('\n', ' ')]. *)
Definition header_part (v : cell) : pystr := replace_char NL SP (strip (py_str v)).

(** The header signature of a sheet: one name per column of its first
    row, the non-empty fragments of the [header_rows] header rows joined
    with " - ", or [Column_<n>] when there is none. *)
Definition extract_headers (ws : worksheet) (header_rows : nat) : list pystr :=
  let raw_headers := iter_rows ws 1 (Some header_rows) in
  match raw_headers with
  | [] => []
  | r0 :: _ =>
      (λ c_idx,
         let parts :=
           omap (λ r_idx,
                   r ← raw_headers !! r_idx;
                   v ← r !! c_idx;
                   if truthy v then Some (header_part v) else None)
                (seq 0 header_rows) in
         match parts with
         | [] => lit "Column_" ++ str_Z (Z.of_nat (c_idx + 1))
         | _ => join (lit " - ") parts
         end) <$> seq 0 (length r0)
  end.

(** [any(r)] on a row of cell values. *)
Definition any_truthy (r : list cell) : bool := existsb truthy r.

(** The data cells of a row:
    [clean_cell_value(r[idx] if idx < len(r) else None)] for [idx] in
    [range(n)]. *)
Definition row_cells (n : nat) (r : list cell) : list pystr :=
  (λ idx, clean_cell_value (default CNone (r !! idx))) <$> seq 0 n.

(** The row loop of the scan: blank lines are skipped, the file name is
    appended, and a row whose tuple was already seen in this file is
    skipped. *)
Fixpoint scan_rows (n : nat) (fname : pystr) (seen_rows : gset (list pystr))
    (rs : list (list cell)) : list (list pystr) :=
  match rs with
  | [] => []
  | r :: rs' =>
      if negb (any_truthy r) then scan_rows n fname seen_rows rs'
      else
        let row_data := row_cells n r ++ [fname] in
        if decide (row_data ∈ seen_rows) then scan_rows n fname seen_rows rs'
        else row_data :: scan_rows n fname ({[ row_data ]} ∪ seen_rows) rs'
  end.

(** The row loop of [finalize_export]: the same, without the seen set. *)
Fixpoint finalize_rows (n : nat) (fname : pystr) (rs : list (list cell))
    : list (list pystr) :=
  match rs with
  | [] => []
  | r :: rs' =>
      if negb (any_truthy r) then finalize_rows n fname rs'
      else (row_cells n r ++ [fname]) :: finalize_rows n fname rs'
  end.

(** *** Scanning (Standard and Normal mode) *)

(** The body of the loop over [target_files].  An exception is logged
    and, in Standard mode only, raised again; [ColumnMismatchError] is
    raised in Standard mode only, so it always leaves the loop. *)
Definition scan_file (is_std : bool) (h_count : nat) (st : scan_state)
    (fpath : pystr) : result scan_state :=
  let fname := basename fpath in
  match load_workbook fpath with
  | None => if is_std then Raise UnexpectedError else Ok st
  | Some wb =>
      let ws := wb_active wb in
      if match ws_max_row ws with Some m => bool_decide (m < h_count)%nat | None => false end
      then Ok st
      else
        let local_cols := extract_headers ws h_count in
        match local_cols with
        | [] => Ok st
        | _ =>
            let sig := local_cols in
            let checked :=
              if is_std then
                match first_sig_standard st with
                | None => Ok (Some sig)
                | Some first =>
                    if decide (sig = first) then Ok (Some first)
                    else Raise (ColumnMismatchError fname)
                end
              else Ok (first_sig_standard st) in
            match checked with
            | Raise e => Raise e
            | Ok first =>
                let b :=
                  default {| b_cols := local_cols; b_rows := []; b_files := [];
                             b_header_rows := None |}
                          (od_get (buckets st) sig) in
                let file_rows :=
                  scan_rows (length local_cols) fname ∅ (iter_rows ws (h_count + 1) None) in
                Ok {| buckets :=
                        od_set (buckets st) sig
                          {| b_cols := b_cols b; b_rows := b_rows b ++ file_rows;
                             b_files := b_files b ++ [fpath];
                             b_header_rows := b_header_rows b |};
                      first_sig_standard := first |}
            end
        end
  end.

Fixpoint scan_files (is_std : bool) (h_count : nat) (st : scan_state)
    (target_files : list pystr) : result scan_state :=
  match target_files with
  | [] => Ok st
  | fpath :: rest =>
      match scan_file is_std h_count st fpath with
      | Raise e => Raise e
      | Ok st' => scan_files is_std h_count st' rest
      end
  end.

(** What reading one file yields for the bucketing: [None] when the
    workbook cannot be loaded, [Some None] when the file is read and
    skipped (fewer rows than the header, or no header), [Some (Some sig)]
    when it has the header signature [sig]. *)
Definition signature_of (h_count : nat) (fpath : pystr) : option (option (list pystr)) :=
  wb ← load_workbook fpath;
  let ws := wb_active wb in
  if match ws_max_row ws with Some m => bool_decide (m < h_count)%nat | None => false end
  then Some None
  else
    match extract_headers ws h_count with
    | [] => Some None
    | sig => Some (Some sig)
    end.

(** *** Fuzzy grouping *)

Definition is_brand (v_lower : pystr) : bool :=
  contains v_lower (lit "schneider") || bool_decide (v_lower ∈ [lit "se"; lit "s.e."]).

(** The inner loop over the longer values; [None] is the
    [ZeroDivisionError] of [len(short_val) / len(long_val)]. *)
Fixpoint scan_longer (rf_threshold : float) (short_val : pystr)
    (mapping : gmap pystr pystr) (longer : list pystr) : option (gmap pystr pystr) :=
  match longer with
  | [] => Some mapping
  | long_val :: rest =>
      if decide (is_Some (mapping !! long_val)) then
        scan_longer rf_threshold short_val mapping rest
      else
        let s_lower := lower short_val in
        let l_lower := lower long_val in
        if is_brand l_lower then
          scan_longer rf_threshold short_val (<[long_val := SCHNEIDER_ELECTRIC]> mapping) rest
        else if startswith l_lower s_lower then
          scan_longer rf_threshold short_val (<[long_val := short_val]> mapping) rest
        else if decide (length long_val = 0%nat) then None
        else if PrimFloat.ltb (PrimFloat.div (float_of_len short_val) (float_of_len long_val))
                              0.6%float
        then scan_longer rf_threshold short_val mapping rest
        else if PrimFloat.leb rf_threshold (token_sort_ratio s_lower l_lower) then
          scan_longer rf_threshold short_val (<[long_val := short_val]> mapping) rest
        else scan_longer rf_threshold short_val mapping rest
  end.

(** The body of the outer loop, for [short_val] and the values after it. *)
Definition visit (rf_threshold : float) (mapping : gmap pystr pystr)
    (short_val : pystr) (rest : list pystr) : option (gmap pystr pystr) :=
  if is_brand (lower short_val) then Some (<[short_val := SCHNEIDER_ELECTRIC]> mapping)
  else if decide (is_Some (mapping !! short_val)) then Some mapping
  else if bool_decide (length short_val < 2)%nat then Some (<[short_val := short_val]> mapping)
  else scan_longer rf_threshold short_val (<[short_val := short_val]> mapping) rest.

(** The outer loop [for i, short_val in enumerate(unique_vals)]. *)
Fixpoint build_mapping (rf_threshold : float) (mapping : gmap pystr pystr)
    (unique_vals : list pystr) : option (gmap pystr pystr) :=
  match unique_vals with
  | [] => Some mapping
  | short_val :: rest =>
      mapping' ← visit rf_threshold mapping short_val rest;
      build_mapping rf_threshold mapping' rest
  end.

(** The mapping when the outer loop has gone through the values [done]
    of [done ++ todo]. *)
Fixpoint mapping_after (rf_threshold : float) (mapping : gmap pystr pystr)
    (done todo : list pystr) : option (gmap pystr pystr) :=
  match done with
  | [] => Some mapping
  | short_val :: done' =>
      mapping' ← visit rf_threshold mapping short_val (done' ++ todo);
      mapping_after rf_threshold mapping' done' todo
  end.

(** [unique_vals]: the distinct non-empty stripped values, in the order a
    set hands them out, sorted by length. *)
Definition unique_vals_of (cells : list pystr) : list pystr :=
  let vals := strip <$> filter (λ c, c ≠ [] ∧ strip c ≠ []) cells in
  merge_sort len_le (elements (list_to_set vals : gset pystr)).

(** [run_fuzzy_logic] returns the rows it leaves behind ([None] when it
    raises: [r[col_idx]] on a short row, or the division). *)
Definition run_fuzzy_logic (rows : list (list pystr)) (headers : list pystr)
    (threshold : float) (target_col : pystr) : option (list (list pystr)) :=
  let target := lower target_col in
  match list_find (λ h, Is_true (contains (lower h) target)) headers with
  | None => Some rows
  | Some (col_idx, _) =>
      cells ← mapM (λ r : list pystr, r !! col_idx) rows;
      mapping ← build_mapping (PrimFloat.mul threshold 100%float) ∅ (unique_vals_of cells);
      Some ((λ r : list pystr,
               let orig := strip (default [] (r !! col_idx)) in
               match mapping !! orig with
               | Some canon => if decide (canon = orig) then r else <[col_idx := canon]> r
               | None => r
               end) <$> rows)
  end.

(** *** Naming and the finalize re-read *)

(** The loop over [data.get("files", [])] in [finalize_export]; [None]
    when [load_workbook] raises. *)
Fixpoint reread_files (h_count : nat) (files : list pystr)
    (new_cols : option (list pystr)) (new_rows : list (list pystr))
    : option (option (list pystr) * list (list pystr)) :=
  match files with
  | [] => Some (new_cols, new_rows)
  | fpath :: rest =>
      wb ← load_workbook fpath;
      let ws := wb_active wb in
      let fname := basename fpath in
      let local_cols := extract_headers ws h_count in
      match local_cols with
      | [] => reread_files h_count rest new_cols new_rows
      | _ =>
          reread_files h_count rest
            (Some (default local_cols new_cols))
            (new_rows ++ finalize_rows (length local_cols) fname
                           (iter_rows ws (h_count + 1) None))
      end
  end.

(** The body of the loop over [named_buckets.items()], for the header-row
    count [h_count] and the files of the bucket. *)
Definition rebuild_at (cfg : config) (h_count : nat) (files : list pystr) : option table :=
  '(new_cols, new_rows) ← reread_files h_count files None [];
  new_rows' ← (if is_fuzzy cfg
               then run_fuzzy_logic new_rows (default [] new_cols)
                      (fuzzy_thresh cfg) (target_col_name cfg)
               else Some new_rows);
  Some {| t_cols := default [] new_cols; t_rows := new_rows' |}.

(** The table rebuilt for one named bucket;
    [safe_int(data.get("header_rows"), 1)] is 1 when the bucket carries no
    header-row count. *)
Definition rebuild (cfg : config) (data : bucket) : option table :=
  rebuild_at cfg (default 1%nat (b_header_rows data)) (b_files data).

Fixpoint rebuild_all (cfg : config) (named_buckets : list (pystr * bucket))
    (rebuilt : list (pystr * table)) : option (list (pystr * table)) :=
  match named_buckets with
  | [] => Some rebuilt
  | (tab_name, data) :: rest =>
      t ← rebuild cfg data;
      rebuild_all cfg rest (od_set rebuilt tab_name t)
  end.

Definition finalize_export (cfg : config) (named_buckets : list (pystr * bucket)) : outcome :=
  match named_buckets with
  | [] => Cancelled
  | _ =>
      match rebuild_all cfg named_buckets [] with
      | Some rebuilt => Done rebuilt
      | None => Failed UnexpectedError
      end
  end.

(** The names [prompt_table_names] gives without asking. *)
Definition auto_named (bs : list (list pystr * bucket)) : list (pystr * bucket) :=
  foldl (λ named_buckets sd,
           od_set named_buckets
             (if decide (length bs = 1%nat) then lit "Main Table" else lit "Data")
             (sd.2))
        [] bs.

Definition prompt_table_names (cfg : config) (bs : list (list pystr * bucket)) : outcome :=
  if bool_decide (15 < length bs)%nat then LimitExceeded
  else if bool_decide (cfg_mode cfg = Standard) || bool_decide (length bs = 1%nat)
  then finalize_export cfg (auto_named bs)
  else AwaitingNaming bs.

(** [TableStructureNamerDialog.on_submit]: the entry text and the chosen
    header-row count of every bucket, in order; [None] when a warning is
    shown and the dialog stays open. *)
Fixpoint on_submit (entries : list ((list pystr * bucket) * (pystr * nat)))
    (used_names : gset pystr) (final_map : list (pystr * bucket))
    : option (list (pystr * bucket)) :=
  match entries with
  | [] => Some final_map
  | ((sig, data), (text, hdr)) :: rest =>
      let name := strip text in
      if decide (name = []) then None
      else if decide (name ∈ used_names) then None
      else on_submit rest ({[ name ]} ∪ used_names)
             (od_set final_map name
                {| b_cols := b_cols data; b_rows := b_rows data;
                   b_files := b_files data; b_header_rows := Some hdr |})
  end.

(** The grouping pass over the scanned buckets. *)
Fixpoint fuzzy_buckets (cfg : config) (bs : list (list pystr * bucket))
    : option (list (list pystr * bucket)) :=
  match bs with
  | [] => Some []
  | (sig, b) :: rest =>
      rows' ← (if is_fuzzy cfg
               then run_fuzzy_logic (b_rows b) (b_cols b) (fuzzy_thresh cfg) (target_col_name cfg)
               else Some (b_rows b));
      rest' ← fuzzy_buckets cfg rest;
      Some ((sig, {| b_cols := b_cols b; b_rows := rows'; b_files := b_files b;
                     b_header_rows := b_header_rows b |}) :: rest')
  end.

(** The header-row count of the scan: 1 in Standard mode, else the entry
    when it is a positive integer. *)
Definition scan_h_count (cfg : config) : nat :=
  match cfg_mode cfg with
  | Standard => 1%nat
  | _ =>
      match skip_rows cfg with
      | Some h_val => if bool_decide (0 < h_val)%Z then Z.to_nat h_val else 1%nat
      | None => 1%nat
      end
  end.

(** The Standard / Normal branch of [worker_process_files], up to the
    payload handed to [prompt_table_names]. *)
Definition scan (cfg : config) (target_files : list pystr)
    : result (list (list pystr * bucket)) :=
  let is_std := bool_decide (cfg_mode cfg = Standard) in
  match scan_files is_std (scan_h_count cfg)
          {| buckets := []; first_sig_standard := None |} (sorted target_files) with
  | Raise e => Raise e
  | Ok st =>
      match fuzzy_buckets cfg (buckets st) with
      | Some bs => Ok bs
      | None => Raise UnexpectedError
      end
  end.

(** *** Community mode *)

Definition is_community_workbook (wb : workbook) : bool :=
  let names := strip <$> (fst <$> wb_sheets wb) in
  forallb (λ r, bool_decide (r ∈ names)) required
  && forallb (λ s,
       match wb_get wb s with
       | None => false
       | Some ws =>
           match iter_rows ws 1 (Some 1%nat) with
           | [] => false
           | r :: _ =>
               let hdr :=
                 omap (λ v, match v with
                            | CNone => None
                            | _ => Some (lower (strip (py_str v)))
                            end) r in
               bool_decide (lit "sesa" ∈ hdr)
           end
       end) required.

(** The index of the identifier column: the first column whose stripped,
    lower-cased name is [sesa]; [None] is the -1 of the source. *)
Definition find_sesa_idx (cols : list pystr) : option nat :=
  fst <$> list_find (λ c, lower (strip c) = lit "sesa") cols.

(** Trailing placeholder columns are cut: [cols[:last]], [last] being one
    past the last column with a real name. *)
Definition trim_cols (cols : list pystr) : list pystr :=
  let last :=
    foldl (λ last iv,
             if bool_decide (iv.2 ≠ []) && negb (startswith (iv.2) (lit "Column_"))
             then (iv.1 + 1)%nat else last)
          0%nat (imap pair cols) in
  if bool_decide (0 < last)%nat then take last cols else cols.

(** The row loop of [_read_sheet_table]. *)
Fixpoint sheet_rows (n : nat) (sesa_idx : option nat) (fname sheet_name : pystr)
    (seen : gset (list pystr)) (rs : list (list cell)) : list (list pystr) :=
  match rs with
  | [] => []
  | r :: rs' =>
      if negb (any_truthy r) then sheet_rows n sesa_idx fname sheet_name seen rs'
      else
        let row_data := row_cells n r in
        if match sesa_idx with
           | Some i =>
               let c := default [] (row_data !! i) in
               bool_decide (c = []) || bool_decide (strip c = [])
           | None => false
           end
        then sheet_rows n sesa_idx fname sheet_name seen rs'
        else
          let row_data := row_data ++ [fname; sheet_name] in
          if decide (row_data ∈ seen) then sheet_rows n sesa_idx fname sheet_name seen rs'
          else row_data :: sheet_rows n sesa_idx fname sheet_name ({[ row_data ]} ∪ seen) rs'
  end.

Definition _read_sheet_table (ws : worksheet) (fname sheet_name : pystr)
    : list pystr * list (list pystr) :=
  let cols := trim_cols (extract_headers ws 1) in
  let sesa_idx := find_sesa_idx cols in
  let rows := sheet_rows (length cols) sesa_idx fname sheet_name ∅ (iter_rows ws 2 None) in
  (cols ++ [SOURCE_FILE; SOURCE_SHEET], rows).

(** The loop over the required sheets of one workbook. *)
Fixpoint read_sheets (wb : workbook) (fname : pystr) (sheets : list pystr)
    (tables_by_sheet : list (pystr * table)) : option (list (pystr * table)) :=
  match sheets with
  | [] => Some tables_by_sheet
  | sheet_name :: rest =>
      ws ← wb_get wb sheet_name;
      let '(cols, rows) := _read_sheet_table ws fname sheet_name in
      let t := default {| t_cols := cols; t_rows := [] |} (od_get tables_by_sheet sheet_name) in
      read_sheets wb fname rest
        (od_set tables_by_sheet sheet_name
           {| t_cols := t_cols t; t_rows := t_rows t ++ rows |})
  end.

Fixpoint read_templates (target_files : list pystr)
    (tables_by_sheet : list (pystr * table)) : result (list (pystr * table)) :=
  match target_files with
  | [] => Ok tables_by_sheet
  | fpath :: rest =>
      let fname := basename fpath in
      match load_workbook fpath with
      | None => Raise UnexpectedError
      | Some wb =>
          if negb (is_community_workbook wb) then Raise (InvalidTemplateError fname)
          else
            match read_sheets wb fname required tables_by_sheet with
            | None => Raise UnexpectedError
            | Some tables' => read_templates rest tables'
            end
      end
  end.

(** Rows in order, without the ones whose tuple was seen before. *)
Fixpoint unique_rows (seen : gset (list pystr)) (rows : list (list pystr))
    : list (list pystr) :=
  match rows with
  | [] => []
  | r :: rest =>
      if decide (r ∈ seen) then unique_rows seen rest
      else r :: unique_rows ({[ r ]} ∪ seen) rest
  end.

(** *** The master join *)

(** Every value the first loop adds to [all_sesa]; [None] is the
    [IndexError] of [r[si]] on a row that is too short. *)
Definition collect_sesa (tables_by_sheet : list (pystr * table)) : option (list pystr) :=
  mjoin <$>
    mapM (λ st : pystr * table,
            match find_sesa_idx (t_cols (st.2)) with
            | None => Some []
            | Some si => mapM (λ r : list pystr, strip <$> r !! si) (t_rows (st.2))
            end) tables_by_sheet.

(** [sorted([s for s in all_sesa if s])] *)
Definition sorted_sesa (raw : list pystr) : list pystr :=
  sorted (filter (λ s, s ≠ []) (elements (list_to_set raw : gset pystr))).

(** The composite entry of one row: the stripped non-empty cells at the
    positions of [biz_cols] other than [si], joined with " | ". *)
Definition entry_of (biz_cols : list pystr) (si : nat) (r : list pystr) : pystr :=
  join (lit " | ")
    (omap (λ j,
             if decide (j = si) then None
             else
               let v := default [] (r !! j) in
               if bool_decide (v ≠ []) && bool_decide (strip v ≠ [])
               then Some (strip v) else None)
          (seq 0 (length biz_cols))).

(** The dictionary [m] of one sheet: identifier to set of entries. *)
Definition sheet_entries (biz_cols : list pystr) (si : nat) (rows : list (list pystr))
    : gmap pystr (gset pystr) :=
  foldl (λ m r,
           let sesa := strip (default [] (r !! si)) in
           let entry := entry_of biz_cols si r in
           if decide (entry = []) then m
           else <[sesa := {[ entry ]} ∪ default ∅ (m !! sesa)]> m)
        ∅ rows.

(** [{k: "; ".join(sorted(v)) for k, v in m.items()}] *)
Definition sheet_agg (biz_cols : list pystr) (si : nat) (rows : list (list pystr))
    : gmap pystr pystr :=
  (λ v : gset pystr, join (lit "; ") (sorted (elements v)))
    <$> sheet_entries biz_cols si rows.

Definition biz_cols_of (cols : list pystr) : list pystr :=
  filter (λ c, c ∉ [SOURCE_FILE; SOURCE_SHEET]) cols.

Definition out_col_of (sheet : pystr) : pystr := sheet ++ lit " - Entries".

(** The loop over [tables_by_sheet.items()] that fills [agg_cols] and
    [agg_maps]. *)
Fixpoint aggregate (tables_by_sheet : list (pystr * table))
    (agg_cols : list pystr) (agg_maps : list (pystr * gmap pystr pystr))
    : list pystr * list (pystr * gmap pystr pystr) :=
  match tables_by_sheet with
  | [] => (agg_cols, agg_maps)
  | (sheet, t) :: rest =>
      if decide (sheet = PERSONAL_INFORMATION) then aggregate rest agg_cols agg_maps
      else
        match find_sesa_idx (t_cols t) with
        | None => aggregate rest agg_cols agg_maps
        | Some si =>
            let out_col := out_col_of sheet in
            aggregate rest (agg_cols ++ [out_col])
              (od_set agg_maps out_col (sheet_agg (biz_cols_of (t_cols t)) si (t_rows t)))
        end
  end.

(** The base columns, with [SESA] inserted first when they have no
    identifier column. *)
Definition with_sesa (base_cols : list pystr) : list pystr :=
  match find_sesa_idx base_cols with
  | None => lit "SESA" :: base_cols
  | Some _ => base_cols
  end.

(** [final_cols]: the base columns with their identifier column, then
    every aggregate column not yet present. *)
Definition final_cols_of (base_cols agg_cols : list pystr) : list pystr :=
  foldl (λ final_cols c, if decide (c ∈ final_cols) then final_cols else final_cols ++ [c])
        (with_sesa base_cols) agg_cols.

(** The master row of one identifier. *)
Definition master_row (has_base : bool) (base_cols : list pystr)
    (base_map : gmap pystr (list pystr)) (out_sesa_idx : option nat)
    (agg_cols : list pystr) (agg_maps : list (pystr * gmap pystr pystr))
    (sesa : pystr) : list pystr :=
  let row :=
    match (if has_base then base_map !! sesa else None) with
    | Some r => r ++ replicate (length base_cols - length r) []
    | None =>
        let row := replicate (length base_cols) [] in
        match out_sesa_idx with
        | Some i => if bool_decide (i < length row)%nat then <[i := sesa]> row else sesa :: row
        | None => row
        end
    end in
  row ++ ((λ c, default [] (default ∅ (od_get agg_maps c) !! sesa)) <$> agg_cols).

Definition build_master_table (tables_by_sheet : list (pystr * table)) : option table :=
  raw ← collect_sesa tables_by_sheet;
  let all_sesa := sorted_sesa raw in
  let base := od_get tables_by_sheet PERSONAL_INFORMATION in
  let base_cols := match base with Some b => t_cols b | None => [lit "SESA"] end in
  let base_sesa_idx := find_sesa_idx base_cols in
  let base_map : gmap pystr (list pystr) :=
    match base, base_sesa_idx with
    | Some b, Some i =>
        foldl (λ m r, <[strip (default [] (r !! i)) := r]> m) ∅ (t_rows b)
    | _, _ => ∅
    end in
  let '(agg_cols, agg_maps) := aggregate tables_by_sheet [] [] in
  let final_cols := final_cols_of base_cols agg_cols in
  let out_sesa_idx := find_sesa_idx final_cols in
  Some {| t_cols := final_cols;
          t_rows := master_row (bool_decide (is_Some base)) base_cols base_map
                      out_sesa_idx agg_cols agg_maps <$> all_sesa |}.

(** *** The worker *)

Definition community (target_files : list pystr) : outcome :=
  match read_templates target_files [] with
  | Raise e => Failed e
  | Ok [] => NoData
  | Ok tables_by_sheet =>
      let deduped :=
        (λ st : pystr * table,
           (st.1, {| t_cols := t_cols (st.2); t_rows := unique_rows ∅ (t_rows (st.2)) |}))
          <$> tables_by_sheet in
      match build_master_table deduped with
      | None => Failed UnexpectedError
      | Some master => Done (od_set deduped COMMUNITY_MASTER master)
      end
  end.

Definition worker_process_files (cfg : config) (target_files : list pystr) : outcome :=
  match cfg_mode cfg with
  | Community => community target_files
  | _ =>
      match scan cfg target_files with
      | Raise e => Failed e
      | Ok [] => NoData
      | Ok bs => prompt_table_names cfg bs
      end
  end.

(** *** The dashboard data *)

(** One entry of [tables_js] in [render_dashboard_html]. *)
Record table_js := {
  js_columns : list pystr;
  js_data : list (list pystr);
  js_file_labels : list pystr;
  js_file_counts : list nat
}.

(** The loop that fills [f_counts]: [fn = r[-1]] is the last cell of the
    row, [None] the [IndexError] on a row without cells. *)
Fixpoint count_files (f_counts : list (pystr * nat)) (rows : list (list pystr))
    : option (list (pystr * nat)) :=
  match rows with
  | [] => Some f_counts
  | r :: rest =>
      fn ← last r;
      count_files (od_set f_counts fn (default 0%nat (od_get f_counts fn) + 1)%nat) rest
  end.

(** The body of the loop over [named_buckets.items()]. *)
Definition table_js_of (data : table) : option table_js :=
  let js_cols :=
    if decide (SOURCE_FILE ∈ t_cols data) then t_cols data
    else t_cols data ++ [SOURCE_FILE] in
  f_counts ← count_files [] (t_rows data);
  Some {| js_columns := js_cols; js_data := t_rows data;
          js_file_labels := f_counts.*1; js_file_counts := f_counts.*2 |}.

End DataManager.

(** * Vocabulary of the properties *)

(** A string that does not start with white space. *)
Definition clean_head (s : pystr) : Prop :=
  match s with
  | [] => True
  | c :: _ => isspace c = false
  end.

(** The text part of [clean_cell_value]: strip, then turn no-break spaces
    and newlines into spaces. *)
Definition tidy (s : pystr) : pystr :=
  replace_char NL SP (replace_char NBSP SP (strip s)).

(** The scan never gives a bucket a header-row count. *)
Definition unassigned (bs : list (list pystr * bucket)) : Prop :=
  Forall (λ sb, b_header_rows (sb.2) = None) bs.

(** In Standard mode the buckets are none before the first signature and
    one, keyed by the first signature, after it. *)
Definition single_shape (st : scan_state) : Prop :=
  match first_sig_standard st with
  | None => buckets st = []
  | Some sig => ∃ b, buckets st = [(sig, b)]
  end.


(** A table whose column list ends with the two provenance columns. *)
Definition with_provenance (t : table) : Prop :=
  ∃ data_cols, t_cols t = data_cols ++ [SOURCE_FILE; SOURCE_SHEET].

(** What holds of [tables_by_sheet] all along a Community run: the keys
    are distinct names of required sheets, and every table ends with the
    provenance columns. *)
Definition template_tables (tables : list (pystr * table)) : Prop :=
  NoDup (tables.*1)
  ∧ Forall (λ st, st.1 ∈ required) tables
  ∧ Forall (λ st, with_provenance (st.2)) tables.

(** A bucket as the scan keeps it: keyed by its own non-empty column
    list, with at least one file, and with rows of one cell per column
    plus the file name. *)
Definition bucket_wf (sb : list pystr * bucket) : Prop :=
  sb.1 ≠ [] ∧ b_cols (sb.2) = sb.1 ∧ b_files (sb.2) ≠ []
  ∧ Forall (λ r : list pystr, length r = S (length (sb.1))) (b_rows (sb.2)).

(** The files of the bucket of a signature, none when it has no bucket. *)
Definition files_of (bs : list (list pystr * bucket)) (sig : list pystr) : list pystr :=
  default [] (b_files <$> od_get bs sig).


(** A column name that stands for no header: empty, or one of the
    [Column_<n>] names [extract_headers] gives. *)
Definition placeholder (c : pystr) : Prop :=
  c = [] ∨ startswith c (lit "Column_") = true.

(** What [on_submit] stores for one entry of the dialog: the stripped
    name, and the bucket with the chosen header-row count. *)
Definition submitted (e : (list pystr * bucket) * (pystr * nat)) : pystr * bucket :=
  (strip (e.2.1),
   {| b_cols := b_cols (e.1.2); b_rows := b_rows (e.1.2);
      b_files := b_files (e.1.2); b_header_rows := Some (e.2.2) |}).

Section Vocabulary.
Context `{RT : Runtime}.

(** A mapping in which every branded key has the brand name. *)
Definition brand_consistent (m : gmap pystr pystr) : Prop :=
  ∀ k x, m !! k = Some x → is_brand (lower k) = true → x = SCHNEIDER_ELECTRIC.

(** The sheets that get an aggregate column. *)
Definition aggregated_sheets (tables : list (pystr * table)) : list (pystr * table) :=
  filter (λ st, st.1 ≠ PERSONAL_INFORMATION ∧ is_Some (find_sesa_idx (t_cols (st.2)))) tables.

(** The aggregate of one sheet, as [aggregate] stores it. *)
Definition agg_of (t : table) : gmap pystr pystr :=
  match find_sesa_idx (t_cols t) with
  | Some si => sheet_agg (biz_cols_of (t_cols t)) si (t_rows t)
  | None => ∅
  end.

(** A mapping whose canonical values are fixed: a value is sent to the
    brand name or to a value that is sent to itself. *)
Definition heads_fixed (m : gmap pystr pystr) : Prop :=
  ∀ k x, m !! k = Some x →
    x = SCHNEIDER_ELECTRIC ∨ (m !! x = Some x ∧ is_brand (lower x) = false).

(** The data rows of one file as the finalize re-read takes them, for
    the header-row count [h]: every row that is not blank, repeated rows
    included. *)
Definition file_rows_of (h : nat) (fpath : pystr) : list (list pystr) :=
  match load_workbook fpath with
  | Some wb =>
      finalize_rows (length (extract_headers (wb_active wb) h)) (basename fpath)
        (iter_rows (wb_active wb) (h + 1) None)
  | None => []
  end.

(** A bucket and the files it came from: every file has the signature of
    the bucket, and the rows are those of the files, in order, each file
    without its repeated rows. *)
Definition bucket_src (h : nat) (sb : list pystr * bucket) : Prop :=
  Forall (λ f, signature_of h f = Some (Some (sb.1))) (b_files (sb.2))
  ∧ b_rows (sb.2) = b_files (sb.2) ≫= (λ f, unique_rows ∅ (file_rows_of h f)).

End Vocabulary.

(** * Concrete runtimes and inputs

    A runtime for examples: ASCII lower-casing, POSIX base names, a fixed
    similarity score, and a disk given as a list of paths and workbooks. *)

Definition ascii_lower (s : pystr) : pystr :=
  (λ c, if (65 <=? c) && (c <=? 90) then c + 32 else c) <$> s.

Fixpoint posix_basename_from (p acc : pystr) : pystr :=
  match p with
  | [] => acc
  | c :: p' =>
      if decide (c = 47) then posix_basename_from p' []
      else posix_basename_from p' (acc ++ [c])
  end.

Definition example_runtime (score : float) (disk : list (pystr * workbook)) : Runtime :=
  {| lower := ascii_lower;
     str_float := λ _, lit "0.0";
     basename := λ p, posix_basename_from p [];
     token_sort_ratio := λ _ _, score;
     load_workbook := od_get disk |}.

(** A text cell, a sheet with the given rows, a workbook with one sheet. *)
Definition T (s : string) : cell := CStr (lit s).

Definition sheet_of (rows : list (list cell)) : worksheet :=
  {| ws_rows := rows; ws_max_row := Some (length rows) |}.

Definition book_of (rows : list (list cell)) : workbook :=
  {| wb_sheets := [(lit "Sheet1", sheet_of rows)]; wb_active := sheet_of rows |}.

Definition example_config (m : mode) (h : Z) : config :=
  {| cfg_mode := m; skip_rows := Some h; is_fuzzy := false;
     fuzzy_thresh := 0.85%float; target_col_name := lit "Company" |}.


(** One file in which a data row occurs twice. *)
Definition repeated_row_disk : list (pystr * workbook) :=
  [(lit "a.xlsx", book_of [[T "Name"]; [T "Ann"]; [T "Ann"]])].

(** Three files; the second has one renamed column. *)
Definition renamed_column_disk : list (pystr * workbook) :=
  [(lit "f1.xlsx", book_of [[T "Name"; T "Role"]; [T "Ann"; T "Chair"]]);
   (lit "f2.xlsx", book_of [[T "Name"; T "Position"]; [T "Bo"; T "Member"]]);
   (lit "f3.xlsx", book_of [[T "Name"; T "Role"]; [T "Cy"; T "Member"]])].

(** One Community workbook: identifier [A] occurs in the base sheet only,
    identifier [B] in one topic sheet only, with a repeated row. *)
Definition community_book : workbook :=
  {| wb_sheets :=
       [(lit "Personal Information",
         sheet_of [[T "SESA"; T "Name"]; [T "A"; T "Ann"]]);
        (lit "Standards Group",
         sheet_of [[T "SESA"; T "Group"; T "Role"]; [T "B"; T "TC2"; T "Member"];
                   [T "B"; T "TC1"; T "Chair"]; [T "B"; T "TC1"; T "Chair"]]);
        (lit "Internal Groups", sheet_of [[T "SESA"; T "Team"]]);
        (lit "Association", sheet_of [[T "SESA"; T "Body"]]);
        (lit "Expertise", sheet_of [[T "SESA"; T "Field"]])];
     wb_active := sheet_of [] |}.

Definition community_disk : list (pystr * workbook) := [(lit "c.xlsx", community_book)].

Definition community_runtime : Runtime := example_runtime 0%float community_disk.

(** The tables read from that workbook, after the per-sheet pass that
    removes repeated rows, and the Master table built from them. *)
Definition community_tables : list (pystr * table) :=
  Eval vm_compute in
    match @read_templates community_runtime [lit "c.xlsx"] [] with
    | Ok tables_by_sheet =>
        (λ st : pystr * table,
           (st.1, {| t_cols := t_cols (st.2); t_rows := unique_rows ∅ (t_rows (st.2)) |}))
          <$> tables_by_sheet
    | Raise _ => []
    end.

Definition community_master : table :=
  Eval vm_compute in
    default {| t_cols := []; t_rows := [] |}
            (@build_master_table community_runtime community_tables).

(** Two files: a Community workbook, then a workbook that is none. *)
Definition mixed_disk : list (pystr * workbook) :=
  [(lit "c.xlsx", community_book); (lit "plain.xlsx", book_of [[T "Name"]; [T "Ann"]])].

(** One file whose sheet has no rows. *)
Definition empty_sheet_disk : list (pystr * workbook) := [(lit "a.xlsx", book_of [])].

(** The buckets of a Standard scan of the file with a repeated row. *)
Definition repeated_row_buckets : list (list pystr * bucket) :=
  Eval vm_compute in
    match @scan (example_runtime 0%float repeated_row_disk) (example_config Standard 1)
            [lit "a.xlsx"] with
    | Ok bs => bs
    | Raise _ => []
    end.


(** Rows of a company table for the grouping examples. *)
Definition company_rows : list (list pystr) :=
  [[lit "Siemens AG"; lit "a.xlsx"]; [lit "Siemens GA"; lit "a.xlsx"]].

(** Values of a company column for the grouping examples. *)
Definition brand_values : list pystr :=
  [lit "SE"; lit "Sch"; lit "Acme Corp"; lit "Schneider"; lit "Schneider Electric Japan"].

Definition close_values : list pystr := [lit "Siemens AG"; lit "Siemens GA"].

(** * Properties *)

(** ** Strings *)

Lemma lstrip_clean_head s : clean_head (lstrip s).
Proof.
  induction s as [|c s IH]; simpl; [done|].
  destruct (isspace c) eqn:E; [done|]. simpl. exact E.
Qed.

Lemma lstrip_id s : clean_head s → lstrip s = s.
Proof. destruct s as [|c s]; simpl; [done|]. by intros ->. Qed.

Lemma lstrip_suffix s : ∃ p, s = p ++ lstrip s.
Proof.
  induction s as [|c s [p IH]]; simpl; [by exists []|].
  destruct (isspace c); [|by exists []].
  exists (c :: p). simpl. by f_equal.
Qed.

Lemma clean_head_app s t : s ≠ [] → clean_head (s ++ t) → clean_head s.
Proof. by destruct s. Qed.

Lemma clean_head_app_l s t : s ≠ [] → clean_head s → clean_head (s ++ t).
Proof. by destruct s. Qed.

Lemma rstrip_clean_head s : clean_head s → clean_head (rstrip s).
Proof.
  intros Hs. unfold rstrip.
  destruct (lstrip_suffix (reverse s)) as [p Hp].
  destruct (lstrip (reverse s)) as [|c u] eqn:E; [done|].
  assert (s = reverse (c :: u) ++ reverse p) as Hs'.
  { rewrite <- reverse_app, <- Hp. by rewrite reverse_involutive. }
  rewrite Hs' in Hs. revert Hs. apply clean_head_app.
  rewrite reverse_cons. by destruct (reverse u).
Qed.

Lemma strip_clean_head s : clean_head (strip s).
Proof. apply rstrip_clean_head, lstrip_clean_head. Qed.

Lemma strip_clean_last s : clean_head (reverse (strip s)).
Proof.
  unfold strip, rstrip. rewrite reverse_involutive. apply lstrip_clean_head.
Qed.

Lemma strip_id s : clean_head s → clean_head (reverse s) → strip s = s.
Proof.
  intros H1 H2. unfold strip, rstrip.
  rewrite (lstrip_id s H1), (lstrip_id _ H2). apply reverse_involutive.
Qed.


Lemma strip_nil : strip [] = [].
Proof. reflexivity. Qed.

(** Replacing a white-space character by a space keeps white space white
    and everything else as it is. *)
Lemma isspace_replace old c :
  isspace old = true →
  isspace (if decide (c = old) then SP else c) = isspace c.
Proof. intros Ho. case_decide; [subst; by rewrite Ho | done]. Qed.

Lemma clean_head_replace old s :
  isspace old = true → clean_head s → clean_head (replace_char old SP s).
Proof.
  intros Ho. destruct s as [|c s]; simpl; [done|].
  by rewrite isspace_replace.
Qed.

Lemma reverse_replace old new s :
  reverse (replace_char old new s) = replace_char old new (reverse s).
Proof. unfold replace_char. by rewrite fmap_reverse. Qed.

Lemma replace_char_absent old new s :
  old ∉ s → replace_char old new s = s.
Proof.
  induction s as [|c s IH]; simpl; [done|].
  intros Hn. apply not_elem_of_cons in Hn as [Hne Hn].
  unfold replace_char in *. simpl. rewrite IH by done.
  case_decide; congruence.
Qed.

Lemma replace_char_gone old new s :
  old ≠ new → old ∉ replace_char old new s.
Proof.
  intros Hne. unfold replace_char. rewrite list_elem_of_fmap.
  intros (c & Hc & _). case_decide; congruence.
Qed.

Lemma replace_char_keeps_absent old new x s :
  x ≠ new → x ∉ s → x ∉ replace_char old new s.
Proof.
  intros Hne Hx. unfold replace_char. rewrite list_elem_of_fmap.
  intros (c & Hc & Hin). case_decide; [congruence | by subst].
Qed.

Lemma tidy_fixed s : tidy (tidy s) = tidy s.
Proof.
  unfold tidy at 1.
  assert (strip (tidy s) = tidy s) as ->.
  { apply strip_id; unfold tidy.
    - do 2 (apply clean_head_replace; [done|]). apply strip_clean_head.
    - rewrite !reverse_replace.
      do 2 (apply clean_head_replace; [done|]). apply strip_clean_last. }
  assert (NBSP ∉ tidy s).
  { unfold tidy. apply replace_char_keeps_absent; [done|].
    by apply replace_char_gone. }
  assert (NL ∉ tidy s).
  { unfold tidy. by apply replace_char_gone. }
  rewrite (replace_char_absent NBSP) by done.
  by rewrite replace_char_absent.
Qed.

Lemma tidy_no_space s :
  Forall (λ c, isspace c = false) s → tidy s = s.
Proof.
  intros Hs. unfold tidy.
  assert (strip s = s) as ->.
  { apply strip_id.
    - destruct s; [done|]. by inv Hs.
    - apply Forall_reverse in Hs. destruct (reverse s); [done|]. by inv Hs. }
  rewrite !replace_char_absent; [done| |].
  - intros Hin. rewrite Forall_forall in Hs. by apply Hs in Hin.
  - rewrite replace_char_absent; intros Hin; rewrite Forall_forall in Hs;
      by apply Hs in Hin.
Qed.

Lemma digit_no_space n : isspace (digit n) = false.
Proof.
  unfold digit. pose proof (N.mod_upper_bound n 10 ltac:(done)) as Hlt.
  assert (∃ k, (k < 10)%nat ∧ n `mod` 10 = N.of_nat k) as (k & Hk & ->).
  { exists (N.to_nat (n `mod` 10)). split; lia. }
  do 10 (destruct k as [|k]; [reflexivity|]). lia.
Qed.

Lemma strftime_ymd_no_space dt :
  Forall (λ c, isspace c = false) (strftime_ymd dt).
Proof.
  unfold strftime_ymd, pad4, pad2.
  repeat (apply Forall_cons; split; [apply digit_no_space || reflexivity|]);
    simpl; repeat (apply Forall_cons; split; [apply digit_no_space || reflexivity|]).
  apply Forall_nil_2.
Qed.

Section Properties.
Context `{RT : Runtime}.

Lemma clean_cell_value_text s :
  clean_cell_value (CStr s) = if decide (tidy s ∈ error_markers) then [] else tidy s.
Proof. reflexivity. Qed.

Lemma clean_cell_value_tidy v :
  v ≠ CNone → (∀ dt, v ≠ CDateTime dt) →
  clean_cell_value v = if decide (tidy (py_str v) ∈ error_markers) then [] else tidy (py_str v).
Proof. destruct v; try done. intros _ H. by destruct (H dt). Qed.

Lemma clean_text_fixed s :
  tidy s = s → s ∉ error_markers → clean_cell_value (CStr s) = s.
Proof.
  intros Ht Hn. rewrite clean_cell_value_text, Ht. by rewrite decide_False.
Qed.

Lemma strftime_ymd_not_marker dt : strftime_ymd dt ∉ error_markers.
Proof.
  unfold error_markers. rewrite !not_elem_of_cons. 
  assert (∀ t, strftime_ymd dt ≠ 35 :: t) as H.
  { intros t Heq. unfold strftime_ymd, pad4 in Heq. simpl in Heq.
    injection Heq as Hd _. unfold digit in Hd.
    generalize dependent ((year dt / 1000) `mod` 10). intros; lia. }
  repeat split; try apply H. apply not_elem_of_nil.
Qed.

(** C7. Cell normalisation is idempotent: normalising the text that
    [clean_cell_value] returned gives that text back, whatever the cell
    value was (absent, text, number, boolean or date). *)
Theorem clean_cell_value_idempotent (v : cell) :
  clean_cell_value (CStr (clean_cell_value v)) = clean_cell_value v.
Proof.
  assert (clean_cell_value (CStr []) = []) as Hnil by reflexivity.
  assert (∀ s, clean_cell_value (CStr (if decide (tidy s ∈ error_markers) then [] else tidy s))
               = if decide (tidy s ∈ error_markers) then [] else tidy s) as Htext.
  { intros s. case_decide as Hm; [done|].
    apply clean_text_fixed; [apply tidy_fixed | done]. }
  destruct v as [|s|z|f|b|dt]; try apply Htext; [done|].
  simpl. apply clean_text_fixed.
  - apply tidy_no_space, strftime_ymd_no_space.
  - apply strftime_ymd_not_marker.
Qed.

(** ** Blank lines *)






(** ** Standard mode: one signature, or no result *)

Lemma scan_file_skipped is_std h st fpath :
  signature_of h fpath = Some None → scan_file is_std h st fpath = Ok st.
Proof.
  unfold signature_of, scan_file. destruct (load_workbook fpath) as [wb|]; [|done].
  simpl. destruct (match ws_max_row _ with Some _ => _ | None => _ end); [done|].
  by destruct (extract_headers _ _).
Qed.

Lemma scan_file_first h st fpath sig :
  signature_of h fpath = Some (Some sig) → first_sig_standard st = None →
  ∃ st', scan_file true h st fpath = Ok st' ∧ first_sig_standard st' = Some sig.
Proof.
  unfold signature_of, scan_file. destruct (load_workbook fpath) as [wb|]; [|done].
  simpl. destruct (match ws_max_row _ with Some _ => _ | None => _ end); [done|].
  destruct (extract_headers _ _) as [|c cs]; [done|].
  intros [= <-] ->. eauto.
Qed.

Lemma scan_file_same h st fpath sig :
  signature_of h fpath = Some (Some sig) → first_sig_standard st = Some sig →
  ∃ st', scan_file true h st fpath = Ok st' ∧ first_sig_standard st' = Some sig.
Proof.
  unfold signature_of, scan_file. destruct (load_workbook fpath) as [wb|]; [|done].
  simpl. destruct (match ws_max_row _ with Some _ => _ | None => _ end); [done|].
  destruct (extract_headers _ _) as [|c cs]; [done|].
  intros [= <-] ->. rewrite decide_True by done. eauto.
Qed.

Lemma scan_file_mismatch h st fpath sig first :
  signature_of h fpath = Some (Some sig) → first_sig_standard st = Some first →
  sig ≠ first →
  scan_file true h st fpath = Raise (ColumnMismatchError (basename fpath)).
Proof.
  unfold signature_of, scan_file. destruct (load_workbook fpath) as [wb|]; [|done].
  simpl. destruct (match ws_max_row _ with Some _ => _ | None => _ end); [done|].
  destruct (extract_headers _ _) as [|c cs]; [done|].
  intros [= <-] -> Hne. by rewrite decide_False.
Qed.

Lemma scan_files_skipped is_std h st pre rest :
  Forall (λ f, signature_of h f = Some None) pre →
  scan_files is_std h st (pre ++ rest) = scan_files is_std h st rest.
Proof.
  induction 1 as [|f pre Hf _ IH]; [done|].
  simpl. by rewrite scan_file_skipped.
Qed.

Lemma scan_files_agreeing h st mid rest sig :
  first_sig_standard st = Some sig →
  Forall (λ f, signature_of h f = Some None ∨ signature_of h f = Some (Some sig)) mid →
  ∃ st', first_sig_standard st' = Some sig
         ∧ scan_files true h st (mid ++ rest) = scan_files true h st' rest.
Proof.
  intros Hst Hmid. revert st Hst.
  induction Hmid as [|f mid Hf _ IH]; intros st Hst; [by exists st|].
  simpl. destruct Hf as [Hf|Hf].
  - rewrite scan_file_skipped by done. by apply IH.
  - destruct (scan_file_same h st f sig Hf Hst) as (st1 & -> & Hst1).
    by apply IH.
Qed.

(** C1. Standard mode is fail-fast.  Take the files in the order the
    worker reads them (sorted).  The first file that yields a header
    signature fixes the required signature; when a later file yields a
    different one, after files that were skipped or agreed, the run ends
    in [ColumnMismatchError] for that file, whatever the files after it
    are, and it ends without any table. *)
Theorem standard_mode_fail_fast (cfg : config) (target_files : list pystr)
    (pre mid rest : list pystr) (f1 f2 : pystr) (sig1 sig2 : list pystr) :
  cfg_mode cfg = Standard →
  sorted target_files = pre ++ f1 :: mid ++ f2 :: rest →
  Forall (λ f, signature_of 1 f = Some None) pre →
  signature_of 1 f1 = Some (Some sig1) →
  Forall (λ f, signature_of 1 f = Some None ∨ signature_of 1 f = Some (Some sig1)) mid →
  signature_of 1 f2 = Some (Some sig2) →
  sig2 ≠ sig1 →
  worker_process_files cfg target_files = Failed (ColumnMismatchError (basename f2)).
Proof.
  intros Hmode Hsorted Hpre Hf1 Hmid Hf2 Hne.
  unfold worker_process_files, scan, scan_h_count. rewrite Hmode, Hsorted.
  rewrite bool_decide_eq_true_2 by done.
  rewrite scan_files_skipped by done. simpl.
  destruct (scan_file_first 1 {| buckets := []; first_sig_standard := None |}
              f1 sig1 Hf1 eq_refl) as (st1 & -> & Hst1).
  destruct (scan_files_agreeing 1 st1 mid (f2 :: rest) sig1 Hst1 Hmid)
    as (st2 & Hst2 & ->).
  simpl. by rewrite (scan_file_mismatch 1 st2 f2 sig2 sig1).
Qed.

(** ** The finalize re-read of automatically named buckets *)

Lemma od_get_Forall {K V} `{EqDecision K} (P : V → Prop) (d : list (K * V)) k v :
  Forall (λ kv, P (kv.2)) d → od_get d k = Some v → P v.
Proof.
  induction 1 as [|[k' v'] d Hkv _ IH]; simpl; [done|].
  case_decide; [by intros [= <-] | done].
Qed.

Lemma od_set_Forall {K V} `{EqDecision K} (P : V → Prop) (d : list (K * V)) k v :
  Forall (λ kv, P (kv.2)) d → P v → Forall (λ kv, P (kv.2)) (od_set d k v).
Proof.
  intros Hd Hv. induction Hd as [|[k' v'] d Hkv Hd IH]; simpl.
  - by repeat constructor.
  - case_decide; constructor; done.
Qed.

Lemma scan_file_unassigned is_std h st fpath st' :
  scan_file is_std h st fpath = Ok st' →
  unassigned (buckets st) → unassigned (buckets st').
Proof.
  unfold scan_file. destruct (load_workbook fpath) as [wb|].
  2: { destruct is_std; [done|]. by intros [= <-]. }
  destruct (match ws_max_row _ with Some _ => _ | None => _ end); [by intros [= <-]|].
  destruct (extract_headers _ _) as [|c cs] eqn:Hcols; [by intros [= <-]|].
  match goal with |- context [match ?chk with Ok _ => _ | Raise _ => _ end] =>
    destruct chk as [first|e]; [|done] end.
  intros [= <-] Hun. simpl.
  apply (od_set_Forall (λ b, b_header_rows b = None)); [done|]. simpl.
  destruct (od_get (buckets st) (c :: cs)) as [b|] eqn:Hb; [|done].
  simpl. by apply (od_get_Forall (λ b, b_header_rows b = None) _ _ _ Hun Hb).
Qed.

Lemma scan_file_single_shape h st fpath st' :
  scan_file true h st fpath = Ok st' → single_shape st → single_shape st'.
Proof.
  unfold scan_file, single_shape. destruct (load_workbook fpath) as [wb|]; [|done].
  destruct (match ws_max_row _ with Some _ => _ | None => _ end); [by intros [= <-]|].
  destruct (extract_headers _ _) as [|c cs] eqn:Hcols; [by intros [= <-]|].
  destruct (first_sig_standard st) as [first|].
  - case_decide as Heq; [|done]. intros [= <-] [b Hb]. simpl.
    rewrite Hb, <- Heq. simpl. rewrite !decide_True by done. eauto.
  - intros [= <-] Hb. simpl. rewrite Hb. simpl. eauto.
Qed.

Lemma scan_files_unassigned is_std h st files st' :
  scan_files is_std h st files = Ok st' →
  unassigned (buckets st) → unassigned (buckets st').
Proof.
  revert st. induction files as [|f files IH]; intros st; simpl.
  - by intros [= <-].
  - destruct (scan_file is_std h st f) as [st1|e] eqn:Hf; [|done].
    intros Hrest Hun. eapply IH; [done|]. by eapply scan_file_unassigned.
Qed.

Lemma scan_files_single_shape h st files st' :
  scan_files true h st files = Ok st' → single_shape st → single_shape st'.
Proof.
  revert st. induction files as [|f files IH]; intros st; simpl.
  - by intros [= <-].
  - destruct (scan_file true h st f) as [st1|e] eqn:Hf; [|done].
    intros Hrest Hsh. eapply IH; [done|]. by eapply scan_file_single_shape.
Qed.

Lemma fuzzy_buckets_shape cfg bs bs' :
  fuzzy_buckets cfg bs = Some bs' →
  Forall2 (λ sb sb', sb.1 = sb'.1 ∧ b_files (sb.2) = b_files (sb'.2)
                     ∧ b_cols (sb.2) = b_cols (sb'.2)
                     ∧ b_header_rows (sb.2) = b_header_rows (sb'.2)) bs bs'.
Proof.
  revert bs'. induction bs as [|[sig b] bs IH]; intros bs'; simpl.
  - intros [= <-]. constructor.
  - destruct (if is_fuzzy cfg then _ else _) as [rows'|]; [|done]. simpl.
    destruct (fuzzy_buckets cfg bs) as [rest'|]; [|done]. simpl.
    intros [= <-]. constructor; [done|]. by apply IH.
Qed.

(** What the scan hands to [prompt_table_names]: no bucket has a
    header-row count, and in Standard mode there is at most one bucket. *)
Lemma scan_payload cfg target_files bs :
  scan cfg target_files = Ok bs →
  unassigned bs ∧ (cfg_mode cfg = Standard → (length bs ≤ 1)%nat).
Proof.
  unfold scan.
  destruct (scan_files _ _ _ _) as [st|e] eqn:Hscan; [|done].
  destruct (fuzzy_buckets cfg (buckets st)) as [bs1|] eqn:Hfz; [|done].
  intros [= <-]. apply fuzzy_buckets_shape in Hfz. split.
  - apply scan_files_unassigned in Hscan; [|by constructor].
    unfold unassigned in *. induction Hfz as [|sb sb' l l' (_&_&_&Hh) _ IH]; [done|].
    inv Hscan. constructor; [congruence | by apply IH].
  - intros Hstd. rewrite Hstd, bool_decide_eq_true_2 in Hscan by done.
    apply scan_files_single_shape in Hscan; [|done].
    rewrite <- (Forall2_length _ _ _ Hfz). unfold single_shape in Hscan.
    destruct (first_sig_standard st); [destruct Hscan as [b ->] | rewrite Hscan];
      simpl; lia.
Qed.

(** ** Fuzzy grouping *)

Lemma brand_consistent_empty : brand_consistent ∅.
Proof. intros k x Hk. by rewrite lookup_empty in Hk. Qed.

Ltac scan_longer_cases :=
  repeat match goal with
    | |- context [decide ?P] => destruct (decide P)
    | |- context [if ?b then _ else _] => destruct b eqn:?
    end.

Lemma scan_longer_total rf s m longer :
  [] ∉ longer → is_Some (scan_longer rf s m longer).
Proof.
  revert m. induction longer as [|l longer IH]; intros m Hn; simpl; [done|].
  apply not_elem_of_cons in Hn as [Hl Hn].
  destruct (decide (is_Some (m !! l))); [by apply IH|].
  destruct (is_brand (lower l)); [by apply IH|].
  destruct (startswith (lower l) (lower s)); [by apply IH|].
  destruct (decide (length l = 0%nat)) as [Hz|_].
  { destruct l; [done | discriminate Hz]. }
  destruct (PrimFloat.ltb _ _); [by apply IH|].
  destruct (PrimFloat.leb _ _); by apply IH.
Qed.


Lemma scan_longer_new rf s m longer m1 k x :
  scan_longer rf s m longer = Some m1 → m1 !! k = Some x →
  m !! k = Some x
  ∨ (is_brand (lower k) = true ∧ x = SCHNEIDER_ELECTRIC)
  ∨ (is_brand (lower k) = false ∧ x = s).
Proof.
  revert m. induction longer as [|l longer IH]; intros m; simpl.
  { intros [= <-]. by left. }
  scan_longer_cases; try done; intros Hs Hk;
    destruct (IH _ Hs Hk) as [Hm|Hnew]; auto;
    destruct (decide (l = k)) as [->|Hne];
    rewrite ?lookup_insert_eq, ?lookup_insert_ne in Hm by done; auto;
    injection Hm as <-; auto.
Qed.

Lemma scan_longer_incl rf s m longer m1 :
  scan_longer rf s m longer = Some m1 → m ⊆ m1.
Proof.
  revert m. induction longer as [|l longer IH]; intros m; simpl.
  { by intros [= <-]. }
  scan_longer_cases; try done; intros Hs; apply IH in Hs; try done;
    (etrans; [|exact Hs]); apply insert_subseteq;
    by apply eq_None_not_Some.
Qed.


Lemma visit_total rf m s rest : [] ∉ rest → is_Some (visit rf m s rest).
Proof.
  intros Hn. unfold visit. scan_longer_cases; try done.
  by apply scan_longer_total.
Qed.

Lemma visit_new rf m s rest m1 k x :
  visit rf m s rest = Some m1 → m1 !! k = Some x →
  m !! k = Some x
  ∨ (is_brand (lower k) = true ∧ x = SCHNEIDER_ELECTRIC)
  ∨ (is_brand (lower k) = false ∧ x = s).
Proof.
  unfold visit. destruct (is_brand (lower s)) eqn:Hb.
  { intros [= <-] Hk. destruct (decide (s = k)) as [->|Hne].
    - rewrite lookup_insert_eq in Hk. injection Hk as <-. auto.
    - rewrite lookup_insert_ne in Hk by done. auto. }
  destruct (decide (is_Some (m !! s))); [intros [= <-]; auto|].
  assert (∀ x, <[s:=s]> m !! k = Some x →
            m !! k = Some x ∨ is_brand (lower k) = true ∧ x = SCHNEIDER_ELECTRIC
            ∨ is_brand (lower k) = false ∧ x = s) as Hins.
  { intros y Hy. destruct (decide (s = k)) as [->|Hne].
    - rewrite lookup_insert_eq in Hy. injection Hy as <-. auto.
    - rewrite lookup_insert_ne in Hy by done. auto. }
  destruct (bool_decide _); [intros [= <-]; apply Hins|].
  intros Hs Hk. destruct (scan_longer_new _ _ _ _ _ _ _ Hs Hk) as [Hm|?]; auto.
Qed.

Lemma visit_brand_consistent rf m s rest m1 :
  visit rf m s rest = Some m1 → brand_consistent m → brand_consistent m1.
Proof.
  intros Hv Hm k x Hk Hb.
  destruct (visit_new _ _ _ _ _ _ _ Hv Hk) as [Hmk|[[_ ->]|[Hnb _]]];
    [by eapply Hm | done | congruence].
Qed.

Lemma visit_incl rf m s rest m1 :
  visit rf m s rest = Some m1 → brand_consistent m → m ⊆ m1.
Proof.
  unfold visit. intros Hv Hm. destruct (is_brand (lower s)) eqn:Hb.
  { injection Hv as <-. apply map_subseteq_spec. intros k x Hk.
    destruct (decide (s = k)) as [->|Hne].
    - rewrite lookup_insert_eq. f_equal. symmetry. by eapply Hm.
    - by rewrite lookup_insert_ne. }
  destruct (decide (is_Some (m !! s))) as [|Hn]; [by injection Hv as <-|].
  apply eq_None_not_Some in Hn.
  destruct (bool_decide _); [injection Hv as <-; by apply insert_subseteq|].
  apply scan_longer_incl in Hv. etrans; [|exact Hv]. by apply insert_subseteq.
Qed.

Lemma visit_assigns rf m s rest m1 :
  visit rf m s rest = Some m1 → is_Some (m1 !! s).
Proof.
  unfold visit. destruct (is_brand (lower s)).
  { intros [= <-]. rewrite lookup_insert_eq. eauto. }
  destruct (decide (is_Some (m !! s))); [by intros [= <-]|].
  destruct (bool_decide _).
  { intros [= <-]. rewrite lookup_insert_eq. eauto. }
  intros Hs. apply scan_longer_incl in Hs.
  rewrite map_subseteq_spec in Hs. exists s. apply Hs, lookup_insert_eq.
Qed.

Lemma build_mapping_total rf m uv : [] ∉ uv → is_Some (build_mapping rf m uv).
Proof.
  revert m. induction uv as [|s uv IH]; intros m Hn; simpl; [done|].
  apply not_elem_of_cons in Hn as [_ Hn].
  destruct (visit_total rf m s uv Hn) as [m1 ->]. simpl. by apply IH.
Qed.

Lemma build_mapping_incl rf m uv m' :
  build_mapping rf m uv = Some m' → brand_consistent m →
  m ⊆ m' ∧ brand_consistent m'.
Proof.
  revert m. induction uv as [|s uv IH]; intros m; simpl.
  { by intros [= <-]. }
  destruct (visit rf m s uv) as [m1|] eqn:Hv; [|done]. simpl.
  intros Hb Hm. destruct (IH m1 Hb) as [Hincl Hbc].
  { by eapply visit_brand_consistent. }
  split; [|done]. etrans; [|exact Hincl]. by eapply visit_incl.
Qed.

Lemma build_mapping_assigns rf m uv m' v :
  build_mapping rf m uv = Some m' → brand_consistent m → v ∈ uv → is_Some (m' !! v).
Proof.
  revert m. induction uv as [|s uv IH]; intros m; simpl.
  { intros _ _ Hv. by inv Hv. }
  destruct (visit rf m s uv) as [m1|] eqn:Hv; [|done]. simpl.
  intros Hb Hm Hin.
  assert (brand_consistent m1) as Hm1 by by eapply visit_brand_consistent.
  apply elem_of_cons in Hin as [->|Hin]; [|by eapply IH].
  destruct (visit_assigns _ _ _ _ _ Hv) as [x Hx].
  destruct (build_mapping_incl _ _ _ _ Hb Hm1) as [Hincl _].
  rewrite map_subseteq_spec in Hincl. eauto.
Qed.


Lemma build_mapping_app rf m done todo :
  build_mapping rf m (done ++ todo)
  = mapping_after rf m done todo ≫= λ m', build_mapping rf m' todo.
Proof.
  revert m. induction done as [|s done IH]; intros m; simpl; [done|].
  destruct (visit rf m s (done ++ todo)); simpl; [apply IH | done].
Qed.

Lemma mapping_after_brand_consistent rf m done todo m' :
  mapping_after rf m done todo = Some m' → brand_consistent m → brand_consistent m'.
Proof.
  revert m. induction done as [|s done IH]; intros m; simpl.
  { by intros [= <-]. }
  destruct (visit rf m s (done ++ todo)) as [m1|] eqn:Hv; [|done]. simpl.
  intros Hb Hm. eapply IH; [done|]. by eapply visit_brand_consistent.
Qed.

Lemma elem_of_unique_vals cells x :
  x ∈ unique_vals_of cells ↔ x ≠ [] ∧ ∃ c, c ∈ cells ∧ strip c = x.
Proof.
  unfold unique_vals_of.
  rewrite (merge_sort_Permutation len_le), elem_of_elements, elem_of_list_to_set,
    list_elem_of_fmap.
  split.
  - intros (c & -> & Hc). apply list_elem_of_filter in Hc as [[_ Hs] Hc]. eauto.
  - intros (Hx & c & Hc & <-). exists c. split; [done|].
    apply list_elem_of_filter. split; [|done]. split; [|done].
    intros ->. by apply Hx.
Qed.

Lemma unique_vals_nonempty cells : [] ∉ unique_vals_of cells.
Proof. rewrite elem_of_unique_vals. by intros [? _]. Qed.

Lemma unique_vals_NoDup cells : NoDup (unique_vals_of cells).
Proof.
  unfold unique_vals_of. rewrite (merge_sort_Permutation len_le). apply NoDup_elements.
Qed.

(** C6. Every value of [unique_vals] that contains the brand keyword
    [schneider] or is one of the short forms [se], [s.e.] (after
    lower-casing) is mapped to [Schneider Electric], for every threshold
    and every similarity score: the prefix rule and the fuzzy score never
    decide for such a value.  (The values are non-empty, as those of
    [unique_vals] are, so the loop returns.) *)
Theorem brand_override_precedence (rf_threshold : float) (unique_vals : list pystr) :
  [] ∉ unique_vals →
  ∃ mapping,
    build_mapping rf_threshold ∅ unique_vals = Some mapping ∧
    ∀ v, v ∈ unique_vals →
      contains (lower v) (lit "schneider") = true ∨ lower v ∈ [lit "se"; lit "s.e."] →
      mapping !! v = Some SCHNEIDER_ELECTRIC.
Proof.
  intros Hne.
  destruct (build_mapping_total rf_threshold ∅ unique_vals Hne) as [mapping Hb].
  exists mapping. split; [done|]. intros v Hv Hbrand.
  assert (is_brand (lower v) = true) as Hisb.
  { unfold is_brand. destruct Hbrand as [-> | Hin]; [done|].
    rewrite (bool_decide_eq_true_2 _ Hin). apply orb_true_r. }
  destruct (build_mapping_assigns _ _ _ _ v Hb brand_consistent_empty Hv) as [x Hx].
  destruct (build_mapping_incl _ _ _ _ Hb brand_consistent_empty) as [_ Hbc].
  by rewrite Hx, (Hbc v x Hx Hisb).
Qed.

(** The override on the rows: when every row reaches the target column,
    [run_fuzzy_logic] returns, and a row whose cell in that column holds a
    branded value leaves with [Schneider Electric] there. *)
Lemma run_fuzzy_logic_brand_rows rows headers threshold target col_idx h :
  list_find (λ h, Is_true (contains (lower h) (lower target))) headers = Some (col_idx, h) →
  Forall (λ r : list pystr, is_Some (r !! col_idx)) rows →
  ∃ rows',
    run_fuzzy_logic rows headers threshold target = Some rows' ∧
    Forall2 (λ r r' : list pystr,
               ∀ c, r !! col_idx = Some c → strip c ≠ [] →
                    is_brand (lower (strip c)) = true →
                    ∃ c', r' !! col_idx = Some c' ∧ strip c' = SCHNEIDER_ELECTRIC)
            rows rows'.
Proof.
  intros Hfind Hrows. unfold run_fuzzy_logic. rewrite Hfind.
  destruct (mapM_is_Some_2 (λ r : list pystr, r !! col_idx) rows Hrows) as [cells Hcells].
  rewrite Hcells. simpl.
  destruct (build_mapping_total (threshold * 100)%float ∅ (unique_vals_of cells)
              (unique_vals_nonempty cells)) as [mapping Hmap].
  rewrite Hmap. simpl. eexists. split; [done|].
  apply Forall2_fmap_r, Forall_Forall2_diag, Forall_forall.
  intros r Hr c Hc Hne Hbrand. rewrite Hc. simpl.
  assert (mapping !! strip c = Some SCHNEIDER_ELECTRIC) as ->.
  { assert (strip c ∈ unique_vals_of cells) as Hin.
    { apply elem_of_unique_vals. split; [done|]. exists c. split; [|done].
      apply mapM_Some_1 in Hcells. clear -Hcells Hr Hc.
      induction Hcells as [|r0 c0 rows cells Hr0 _ IH]; [by inv Hr|].
      apply elem_of_cons in Hr as [->|Hr].
      - rewrite Hc in Hr0. injection Hr0 as <-. apply list_elem_of_here.
      - apply list_elem_of_further. by apply IH. }
    destruct (build_mapping_assigns _ _ _ _ _ Hmap brand_consistent_empty Hin) as [x Hx].
    destruct (build_mapping_incl _ _ _ _ Hmap brand_consistent_empty) as [_ Hbc].
    by rewrite Hx, (Hbc _ _ Hx Hbrand). }
  case_decide as Heq.
  - exists c. split; [done|]. by rewrite <- Heq.
  - exists SCHNEIDER_ELECTRIC. split; [|reflexivity].
    apply list_lookup_insert_eq. by eapply lookup_lt_Some.
Qed.


(** ** The order on strings *)

Lemma str_compare_flip a b : str_compare b a = CompOpp (str_compare a b).
Proof.
  revert b. induction a as [|x a IH]; intros [|y b]; simpl; try done.
  rewrite (N.compare_antisym x y). destruct (x ?= y)%N; simpl; auto.
Qed.

Global Instance str_le_total : Total str_le.
Proof.
  intros a b. unfold str_le. rewrite (str_compare_flip a b).
  destruct (str_compare a b); simpl; auto.
Qed.


Lemma sorted_Permutation xs : sorted xs ≡ₚ xs.
Proof. apply (merge_sort_Permutation str_le). Qed.

Lemma elem_of_sorted x xs : x ∈ sorted xs ↔ x ∈ xs.
Proof. by rewrite sorted_Permutation. Qed.

(** ** The master join *)

Lemma aggregate_spec tables agg_cols agg_maps :
  aggregate tables agg_cols agg_maps
  = (agg_cols ++ (out_col_of <$> (aggregated_sheets tables).*1),
     foldl (λ d st, od_set d (out_col_of (st.1)) (agg_of (st.2))) agg_maps
           (aggregated_sheets tables)).
Proof.
  revert agg_cols agg_maps.
  induction tables as [|[sheet t] tables IH]; intros agg_cols agg_maps; simpl.
  { by rewrite app_nil_r. }
  unfold aggregated_sheets in *. rewrite filter_cons. simpl.
  destruct (decide (sheet = PERSONAL_INFORMATION)) as [->|Hne].
  { rewrite decide_False by (by intros [? _]). apply IH. }
  destruct (find_sesa_idx (t_cols t)) as [si|] eqn:Hsi.
  - rewrite decide_True by (split; [done | eauto]).
    assert (agg_of t = sheet_agg (biz_cols_of (t_cols t)) si (t_rows t)) as Hagg.
    { unfold agg_of. by rewrite Hsi. }
    rewrite IH. simpl. rewrite Hagg. by rewrite <- app_assoc.
  - rewrite decide_False by (by intros [_ [? ?]]). apply IH.
Qed.




Lemma filter_ext_elem {A} (P Q : A → Prop) `{∀ x, Decision (P x)} `{∀ x, Decision (Q x)}
    (l : list A) :
  (∀ x, x ∈ l → (P x ↔ Q x)) → filter P l = filter Q l.
Proof.
  induction l as [|x l IH]; intros Hpq; [done|].
  rewrite !filter_cons.
  assert (filter P l = filter Q l) as ->.
  { apply IH. intros y Hy. apply Hpq. by apply list_elem_of_further. }
  pose proof (Hpq x (list_elem_of_here _ _)) as Hx.
  destruct (decide (P x)), (decide (Q x)); tauto || done.
Qed.

Lemma foldl_add_new (start l : list pystr) :
  NoDup l →
  foldl (λ final_cols c, if decide (c ∈ final_cols) then final_cols else final_cols ++ [c])
        start l
  = start ++ filter (λ c, c ∉ start) l.
Proof.
  intros Hnd. revert start.
  induction Hnd as [|c l Hc Hnd IH]; intros start; simpl.
  { by rewrite app_nil_r. }
  rewrite filter_cons. destruct (decide (c ∈ start)) as [Hin|Hin].
  - rewrite decide_False by (by intros ?). apply IH.
  - rewrite decide_True by done. rewrite IH, <- app_assoc. simpl. do 2 f_equal.
    apply filter_ext_elem. intros y Hy. rewrite elem_of_app, list_elem_of_singleton.
    split; [tauto|]. intros Hn [ Hs | Heq ]; [done|]. by subst.
Qed.

Global Instance out_col_of_inj : Inj (=) (=) out_col_of.
Proof. intros a b Hab. unfold out_col_of in Hab. by apply app_inv_tail in Hab. Qed.

Lemma NoDup_filter_fst {A B} (P : A * B → Prop) `{∀ x, Decision (P x)} (l : list (A * B)) :
  NoDup (l.*1) → NoDup ((filter P l).*1).
Proof.
  induction l as [|[a b] l IH]; simpl; [done|].
  rewrite NoDup_cons. intros [Ha Hnd]. rewrite filter_cons.
  destruct (decide (P (a, b))); [|by apply IH].
  simpl. apply NoDup_cons. split; [|by apply IH].
  intros Hin. apply Ha. apply list_elem_of_fmap in Hin as ([a' b'] & -> & Hin).
  apply list_elem_of_filter in Hin as [_ Hin].
  apply list_elem_of_fmap. by exists (a', b').
Qed.

Lemma aggregate_names_NoDup tables :
  NoDup (tables.*1) → NoDup (out_col_of <$> (aggregated_sheets tables).*1).
Proof. intros Hnd. apply (NoDup_fmap_2 _). by apply NoDup_filter_fst. Qed.

Lemma build_master_table_cols tables m :
  NoDup (tables.*1) →
  build_master_table tables = Some m →
  t_cols m =
    final_cols_of
      (match od_get tables PERSONAL_INFORMATION with
       | Some b => t_cols b
       | None => [lit "SESA"]
       end)
      (out_col_of <$> (aggregated_sheets tables).*1).
Proof.
  intros Hnd. unfold build_master_table.
  destruct (collect_sesa tables) as [raw|]; [|done]. simpl.
  rewrite aggregate_spec. simpl. by intros [= <-].
Qed.

(** The columns of the master table, for a base sheet that ends with the
    provenance columns. *)
Lemma build_master_table_columns (tables : list (pystr * table)) (m base : table)
    (data_cols : list pystr) :
  NoDup (tables.*1) →
  build_master_table tables = Some m →
  od_get tables PERSONAL_INFORMATION = Some base →
  t_cols base = data_cols ++ [SOURCE_FILE; SOURCE_SHEET] →
  t_cols m =
    with_sesa (data_cols ++ [SOURCE_FILE; SOURCE_SHEET])
    ++ filter (λ c, c ∉ with_sesa (data_cols ++ [SOURCE_FILE; SOURCE_SHEET]))
         (out_col_of <$> (aggregated_sheets tables).*1).
Proof.
  intros Hnd Hm Hbase Hcols.
  rewrite (build_master_table_cols tables m Hnd Hm), Hbase, Hcols.
  unfold final_cols_of. apply foldl_add_new. by apply aggregate_names_NoDup.
Qed.

Lemma od_get_elem_of {K V} `{EqDecision K} (d : list (K * V)) k v :
  od_get d k = Some v → (k, v) ∈ d.
Proof.
  induction d as [|[k' v'] d IH]; simpl; [done|].
  case_decide as Hk.
  - intros [= <-]. subst. apply list_elem_of_here.
  - intros Hd. apply list_elem_of_further. by apply IH.
Qed.









(** *** Aggregate cells *)




Lemma od_get_set_eq {K V} `{EqDecision K} (d : list (K * V)) k v :
  od_get (od_set d k v) k = Some v.
Proof.
  induction d as [|[k' v'] d IH]; simpl.
  - by rewrite decide_True.
  - destruct (decide (k' = k)) as [->|Hne]; simpl.
    + by rewrite decide_True.
    + by rewrite decide_False.
Qed.

Lemma od_get_set_ne {K V} `{EqDecision K} (d : list (K * V)) k k' v :
  k ≠ k' → od_get (od_set d k' v) k = od_get d k.
Proof.
  intros Hne. induction d as [|[k0 v0] d IH]; simpl.
  - by rewrite decide_False.
  - destruct (decide (k0 = k')) as [->|?]; simpl.
    + by rewrite !decide_False.
    + destruct (decide (k0 = k)); [done | apply IH].
Qed.




(** *** The tables of a Community run *)

Lemma od_set_keys {K V} `{EqDecision K} (d : list (K * V)) k v :
  (od_set d k v).*1 = if decide (k ∈ d.*1) then d.*1 else d.*1 ++ [k].
Proof.
  induction d as [|[k' v'] d IH].
  { destruct (decide (k ∈ ([] : list (K * V)).*1)) as [Hin|_]; [|done].
    by apply elem_of_nil in Hin. }
  cbn [od_set]. destruct (decide (k' = k)) as [->|Hne].
  - destruct (decide (k ∈ ((k, v') :: d).*1)) as [_|Hn]; [done|].
    destruct Hn. apply list_elem_of_here.
  - rewrite fmap_cons, IH. cbn [fst].
    destruct (decide (k ∈ d.*1)) as [Hin|Hin];
      destruct (decide (k ∈ ((k', v') :: d).*1)) as [Hin'|Hin']; try done.
    + destruct Hin'. by apply list_elem_of_further.
    + rewrite fmap_cons in Hin'. apply elem_of_cons in Hin' as [Heq|?]; [|done].
      simpl in Heq. congruence.
Qed.

Lemma od_set_fresh {K V} `{EqDecision K} (d : list (K * V)) k v :
  k ∉ d.*1 → od_set d k v = d ++ [(k, v)].
Proof.
  induction d as [|[k' v'] d IH]; simpl; [done|].
  rewrite not_elem_of_cons. intros [Hne Hk].
  rewrite decide_False by congruence. by rewrite IH.
Qed.

Lemma od_set_Forall_pair {K V} `{EqDecision K} (Q : K * V → Prop) (d : list (K * V)) k v :
  Forall Q d → Q (k, v) → Forall Q (od_set d k v).
Proof.
  intros Hd Hv. induction Hd as [|[k' v'] d Hkv Hd IH]; simpl.
  - by repeat constructor.
  - destruct (decide (k' = k)) as [->|?]; constructor; done.
Qed.

Lemma od_get_fmap {K V W} `{EqDecision K} (g : V → W) (d : list (K * V)) k :
  od_get ((λ kv : K * V, (kv.1, g (kv.2))) <$> d) k = g <$> od_get d k.
Proof.
  induction d as [|[k' v'] d IH]; simpl; [done|].
  destruct (decide (k' = k)); [done | apply IH].
Qed.

Lemma read_sheets_inv wb fname sheets tables tables' :
  read_sheets wb fname sheets tables = Some tables' →
  Forall (λ s, s ∈ required) sheets →
  template_tables tables →
  template_tables tables'
  ∧ ∀ k, k ∈ sheets ∨ is_Some (od_get tables k) → is_Some (od_get tables' k).
Proof.
  revert tables. induction sheets as [|sheet sheets IH]; intros tables; simpl.
  { intros [= <-] _ Htt. split; [done|]. intros k [Hk|Hk]; [by inv Hk | done]. }
  destruct (wb_get wb sheet) as [ws|]; [|done]. simpl.
  set (cols := trim_cols (extract_headers ws 1)).
  set (rows := sheet_rows _ _ _ _ _ _).
  set (t := default _ (od_get tables sheet)).
  intros Hrest Hreq (Hnd & Hkeys & Hcols). inv Hreq.
  assert (with_provenance t) as Ht.
  { subst t. destruct (od_get tables sheet) as [t0|] eqn:Hget; simpl.
    - by apply (od_get_Forall with_provenance _ _ _ Hcols Hget).
    - by exists cols. }
  destruct (IH _ Hrest) as [Htt Hsome]; [done| |].
  { split; [|split].
    - rewrite od_set_keys. case_decide as Hin; [done|].
      apply NoDup_app. split; [done|]. split; [|apply NoDup_singleton].
      intros x Hx ->%list_elem_of_singleton. done.
    - by apply (od_set_Forall_pair (λ st, st.1 ∈ required)).
    - apply (od_set_Forall with_provenance); [done|]. simpl.
      destruct Ht as [dc Hdc]. by exists dc. }
  split; [done|]. intros k Hk. apply Hsome.
  destruct (decide (k = sheet)) as [->|Hne].
  - right. rewrite od_get_set_eq. eauto.
  - destruct Hk as [Hk|Hk].
    + left. apply elem_of_cons in Hk as [?|?]; [done | done].
    + right. by rewrite od_get_set_ne.
Qed.

Lemma read_templates_inv target_files tables tables' :
  read_templates target_files tables = Ok tables' →
  template_tables tables →
  (tables = [] ∨ is_Some (od_get tables PERSONAL_INFORMATION)) →
  template_tables tables'
  ∧ (tables' = [] ∨ is_Some (od_get tables' PERSONAL_INFORMATION)).
Proof.
  revert tables. induction target_files as [|fpath rest IH]; intros tables;
    cbn [read_templates].
  { by intros [= <-]. }
  destruct (load_workbook fpath) as [wb|]; [|done].
  destruct (is_community_workbook wb); cbn [negb]; [|done].
  destruct (read_sheets wb (basename fpath) required tables) as [tables1|] eqn:Hrs; [|done].
  intros Hrest Htt _.
  destruct (read_sheets_inv _ _ _ _ _ Hrs) as [Htt1 Hsome]; [|done|].
  { by apply Forall_forall. }
  apply (IH _ Hrest Htt1). right. apply Hsome. left. apply list_elem_of_here.
Qed.

(** A Community run that ends well hands over the tables it read, which
    are [template_tables] with a base sheet, followed by the Master table
    built from them. *)
Lemma community_done target_files named :
  community target_files = Done named →
  ∃ tables m base,
    named = tables ++ [(COMMUNITY_MASTER, m)] ∧
    template_tables tables ∧
    od_get tables PERSONAL_INFORMATION = Some base ∧
    build_master_table tables = Some m.
Proof.
  unfold community.
  destruct (read_templates target_files []) as [tables0|e] eqn:Hread; [|done].
  destruct (read_templates_inv _ _ _ Hread) as [(Hnd & Hkeys & Hcols) Hbase].
  { split; [constructor | split; constructor]. }
  { by left. }
  destruct tables0 as [|st0 tables0]; [done|].
  set (tables := (λ st : pystr * table, _) <$> st0 :: tables0).
  destruct (build_master_table tables) as [m|] eqn:Hm; [|done].
  intros [= <-].
  assert (tables.*1 = (st0 :: tables0).*1) as Hk.
  { subst tables. rewrite <- list_fmap_compose. by apply list_fmap_ext. }
  assert (Forall (λ st, st.1 ∈ required) tables) as Hkeys'.
  { subst tables. apply Forall_fmap. eapply Forall_impl; [exact Hkeys | by intros []]. }
  destruct Hbase as [?|[b Hb]]; [done|].
  exists tables, m, {| t_cols := t_cols b; t_rows := unique_rows ∅ (t_rows b) |}.
  split; [|split; [|split]].
  - change (od_set tables COMMUNITY_MASTER m = tables ++ [(COMMUNITY_MASTER, m)]).
    apply od_set_fresh. intros Hin. apply list_elem_of_fmap in Hin as (st & Hst & Hin).
    rewrite Forall_forall in Hkeys'. specialize (Hkeys' _ Hin). rewrite <- Hst in Hkeys'.
    revert Hkeys'. change (COMMUNITY_MASTER ∉ required).
    apply (bool_decide_unpack _). by vm_compute.
  - split; [by rewrite Hk | split; [done|]].
    subst tables. apply Forall_fmap. eapply Forall_impl; [exact Hcols | by intros []].
  - subst tables. rewrite (od_get_fmap (λ t, {| t_cols := t_cols t;
      t_rows := unique_rows ∅ (t_rows t) |})). by rewrite Hb.
  - done.
Qed.

Lemma community_worker cfg target_files :
  cfg_mode cfg = Community →
  worker_process_files cfg target_files = community target_files.
Proof. unfold worker_process_files. by intros ->. Qed.

(** C9, as the code has it.  In a Community run that ends well, the
    column list of the Master table is the column list of the base sheet
    as it was read, which is its data columns followed by the two
    provenance columns, with [SESA] put first when it has no identifier
    column; after it come the aggregate columns [<Sheet> - Entries] of the
    other sheets that have an identifier column, in the order of the
    sheets, a name already among the base columns being left out.  So the
    provenance columns come before the aggregate columns. *)
Theorem master_columns (cfg : config) (target_files : list pystr)
    (named : list (pystr * table)) :
  cfg_mode cfg = Community →
  worker_process_files cfg target_files = Done named →
  ∃ tables m base data_cols,
    named = tables ++ [(COMMUNITY_MASTER, m)] ∧
    od_get tables PERSONAL_INFORMATION = Some base ∧
    t_cols base = data_cols ++ [SOURCE_FILE; SOURCE_SHEET] ∧
    t_cols m =
      with_sesa (data_cols ++ [SOURCE_FILE; SOURCE_SHEET])
      ++ filter (λ c, c ∉ with_sesa (data_cols ++ [SOURCE_FILE; SOURCE_SHEET]))
           (out_col_of <$> (aggregated_sheets tables).*1).
Proof.
  intros Hmode Hrun. rewrite community_worker in Hrun by done.
  destruct (community_done _ _ Hrun) as (tables & m & base & -> & Htt & Hbase & Hm).
  destruct Htt as (Hnd & _ & Hcols).
  destruct (od_get_Forall with_provenance _ _ _ Hcols Hbase) as [data_cols Hdc].
  exists tables, m, base, data_cols. split; [done|]. split; [done|]. split; [done|].
  by apply (build_master_table_columns tables m base).
Qed.



End Properties.


(** * The properties on concrete runs *)

Lemma clean_cell_value_examples :
  @clean_cell_value community_runtime (CStr (160 :: lit " a" ++ [10] ++ lit "b  ")) = lit "a b"
  ∧ @clean_cell_value community_runtime (T "#N/A") = []
  ∧ @clean_cell_value community_runtime
      (CDateTime {| year := 2025; month := 1; day := 7; hour := 0; minute := 0;
                    second := 0; microsecond := 0 |}) = lit "2025-01-07".
Proof. by vm_compute. Qed.


(** The limits of a blank line: a cell that holds a space is not an empty
    cell, and its row is kept although it is normalised to the empty
    text; a row of zeros holds no empty cell and is dropped by [any(r)]. *)
Lemma rows_next_to_blank :
  @scan_rows community_runtime 1 (lit "a.xlsx") ∅ [[T " "]] = [[[]; lit "a.xlsx"]]
  ∧ @scan_rows community_runtime 1 (lit "a.xlsx") ∅ [[CInt 0]] = [].
Proof. split; vm_compute; reflexivity. Qed.

Lemma standard_mode_fail_fast_witness :
  @worker_process_files (example_runtime 0%float renamed_column_disk)
    (example_config Standard 1) [lit "f3.xlsx"; lit "f1.xlsx"; lit "f2.xlsx"]
  = Failed (ColumnMismatchError (lit "f2.xlsx")).
Proof.
  apply (@standard_mode_fail_fast (example_runtime 0%float renamed_column_disk)
           (example_config Standard 1) [lit "f3.xlsx"; lit "f1.xlsx"; lit "f2.xlsx"]
           [] [] [lit "f3.xlsx"] (lit "f1.xlsx") (lit "f2.xlsx")
           [lit "Name"; lit "Role"] [lit "Name"; lit "Position"]).
  - reflexivity.
  - vm_compute. reflexivity.
  - constructor.
  - vm_compute. reflexivity.
  - constructor.
  - vm_compute. reflexivity.
  - vm_compute. discriminate.
Defined.

(** The failing input of C3: Standard mode, one file whose data row
    [Ann] occurs twice.  The scan keeps one of the two rows in its bucket;
    the finalize re-read, which builds the table that is rendered, keeps
    both. *)
Theorem finalize_keeps_repeated_rows :
  @scan (example_runtime 0%float repeated_row_disk) (example_config Standard 1)
    [lit "a.xlsx"]
  = Ok [([lit "Name"],
         {| b_cols := [lit "Name"]; b_rows := [[lit "Ann"; lit "a.xlsx"]];
            b_files := [lit "a.xlsx"]; b_header_rows := None |})]
  ∧ @worker_process_files (example_runtime 0%float repeated_row_disk)
      (example_config Standard 1) [lit "a.xlsx"]
    = Done [(lit "Main Table",
             {| t_cols := [lit "Name"];
                t_rows := [[lit "Ann"; lit "a.xlsx"]; [lit "Ann"; lit "a.xlsx"]] |})].
Proof. split; vm_compute; reflexivity. Qed.

Lemma brand_override_precedence_witness :
  ∃ mapping,
    @build_mapping (example_runtime 100%float []) (0.85 * 100)%float ∅ brand_values
    = Some mapping ∧
    ∀ v, v ∈ brand_values →
      contains (ascii_lower v) (lit "schneider") = true
      ∨ ascii_lower v ∈ [lit "se"; lit "s.e."] →
      mapping !! v = Some SCHNEIDER_ELECTRIC.
Proof.
  apply (@brand_override_precedence (example_runtime 100%float [])
           (0.85 * 100)%float brand_values).
  vm_compute. intros Hin.
  repeat (apply elem_of_cons in Hin as [Hin|Hin]; [discriminate Hin|]).
  by apply elem_of_nil in Hin.
Defined.

(** With every similarity score at 100, the branded values go to the
    brand name although [Sch], a shorter value that is no brand, is a
    prefix of [Schneider] and scores above the threshold against it. *)
Lemma brand_values_mapping :
  (λ v, @build_mapping (example_runtime 100%float []) (0.85 * 100)%float ∅ brand_values
          ≫= (.!! v)) <$> brand_values
  = [Some SCHNEIDER_ELECTRIC; Some (lit "Sch"); Some (lit "Acme Corp");
     Some SCHNEIDER_ELECTRIC; Some SCHNEIDER_ELECTRIC].
Proof. vm_compute. reflexivity. Qed.


(** The two sides of the boundary, computed: at threshold 0.85 a score of
    85 groups the longer value under the shorter one, a score of 84 leaves
    it alone. *)
Lemma threshold_boundary_scores :
  (@build_mapping (example_runtime 85%float []) (0.85 * 100)%float ∅ close_values
     ≫= (.!! lit "Siemens GA")) = Some (lit "Siemens AG")
  ∧ (@build_mapping (example_runtime 84%float []) (0.85 * 100)%float ∅ close_values
       ≫= (.!! lit "Siemens GA")) = Some (lit "Siemens GA").
Proof. split; vm_compute; reflexivity. Qed.

(** ** The Community workbook *)

Ltac by_computation := apply (bool_decide_unpack _); vm_compute; exact I.

Lemma community_run :
  @worker_process_files community_runtime (example_config Community 1) [lit "c.xlsx"]
  = Done (od_set community_tables COMMUNITY_MASTER community_master)
  ∧ @build_master_table community_runtime community_tables = Some community_master.
Proof. split; vm_compute; reflexivity. Qed.


(** Against C9 as stated: in the column list of the Master table of the
    run the two provenance columns stand before the aggregate columns. *)
Lemma provenance_before_aggregates :
  @worker_process_files community_runtime (example_config Community 1) [lit "c.xlsx"]
  = Done (od_set community_tables COMMUNITY_MASTER community_master)
  ∧ t_cols community_master
    = [lit "SESA"; lit "Name"; SOURCE_FILE; SOURCE_SHEET;
       lit "Standards Group - Entries"; lit "Internal Groups - Entries";
       lit "Association - Entries"; lit "Expertise - Entries"]
  ∧ t_cols community_master !! 3%nat = Some SOURCE_SHEET
  ∧ t_cols community_master !! 4%nat = Some (out_col_of (lit "Standards Group")).
Proof. repeat split; vm_compute; reflexivity. Qed.


Lemma master_columns_witness :
  ∃ tables m base data_cols,
    community_tables ++ [(COMMUNITY_MASTER, community_master)]
    = tables ++ [(COMMUNITY_MASTER, m)] ∧
    od_get tables PERSONAL_INFORMATION = Some base ∧
    t_cols base = data_cols ++ [SOURCE_FILE; SOURCE_SHEET] ∧
    t_cols m =
      @with_sesa community_runtime (data_cols ++ [SOURCE_FILE; SOURCE_SHEET])
      ++ filter (λ c, c ∉ @with_sesa community_runtime
                            (data_cols ++ [SOURCE_FILE; SOURCE_SHEET]))
           (out_col_of <$> (@aggregated_sheets community_runtime tables).*1).
Proof.
  apply (@master_columns community_runtime (example_config Community 1) [lit "c.xlsx"]).
  - reflexivity.
  - vm_compute. reflexivity.
Defined.


(** The aggregate cell of the run: the two distinct composite strings of
    identifier [B], the repeated one once, in sorted order. *)
Lemma community_master_rows :
  t_rows community_master
  = [[lit "A"; lit "Ann"; lit "c.xlsx"; PERSONAL_INFORMATION; []; []; []; []];
     [lit "B"; []; []; []; lit "TC1 | Chair; TC2 | Member"; []; []; []]].
Proof. vm_compute. reflexivity. Qed.

(** * Further properties of the code *)

Section Further.
Context `{RT : Runtime}.

(** ** Normalised cells *)

Lemma tidy_stripped s : strip (tidy s) = tidy s.
Proof.
  apply strip_id; unfold tidy.
  - do 2 (apply clean_head_replace; [done|]). apply strip_clean_head.
  - rewrite !reverse_replace.
    do 2 (apply clean_head_replace; [done|]). apply strip_clean_last.
Qed.

Lemma tidy_no_breaks s : Forall (λ c, c ≠ NBSP ∧ c ≠ NL) (tidy s).
Proof.
  apply Forall_forall. intros c Hc. split; intros ->; revert Hc; unfold tidy.
  - apply replace_char_keeps_absent; [done|]. by apply replace_char_gone.
  - by apply replace_char_gone.
Qed.

Lemma clean_cell_value_cases v :
  clean_cell_value v = []
  ∨ ∃ s, clean_cell_value v = tidy s ∧ tidy s ∉ error_markers.
Proof.
  assert (∀ s, (if decide (tidy s ∈ error_markers) then [] else tidy s) = []
               ∨ ∃ s', (if decide (tidy s ∈ error_markers) then [] else tidy s) = tidy s'
                       ∧ tidy s' ∉ error_markers) as Htext.
  { intros s. case_decide; [by left | right; by exists s]. }
  destruct v as [|s|z|f|b|dt]; try apply Htext; [by left|].
  right. exists (strftime_ymd dt). simpl.
  rewrite (tidy_no_space _ (strftime_ymd_no_space dt)).
  split; [done | apply strftime_ymd_not_marker].
Qed.

(** X1. What [clean_cell_value] returns is trimmed, holds no no-break space
    and no newline, and is never one of the error markers. *)
Theorem clean_cell_value_normal_form (v : cell) :
  strip (clean_cell_value v) = clean_cell_value v
  ∧ Forall (λ c, c ≠ NBSP ∧ c ≠ NL) (clean_cell_value v)
  ∧ clean_cell_value v ∉ error_markers.
Proof.
  destruct (clean_cell_value_cases v) as [->|(s & -> & Hs)].
  - split; [done|]. split; [constructor|]. by apply (bool_decide_unpack _).
  - split; [apply tidy_stripped|]. split; [apply tidy_no_breaks | done].
Qed.

(** ** Header signatures *)

(** X2. With one header row the signature is read off the first row of the
    sheet, cell by cell: the header text of a cell that holds a value,
    [Column_<n>] (counting from 1) for a cell that holds none. *)
Theorem extract_headers_one (ws : worksheet) (r0 : list cell) (rest : list (list cell)) :
  ws_rows ws = r0 :: rest →
  extract_headers ws 1 =
    imap (λ i v, if truthy v then header_part v
                 else lit "Column_" ++ str_Z (Z.of_nat (i + 1))) r0.
Proof.
  intros Hrows. unfold extract_headers, iter_rows. rewrite Hrows. simpl.
  apply list_eq. intros i. rewrite list_lookup_fmap, list_lookup_imap.
  destruct (r0 !! i) as [v|] eqn:Hv.
  - rewrite lookup_seq_lt by (by eapply lookup_lt_Some). simpl. rewrite Hv. simpl.
    by destruct (truthy v).
  - rewrite lookup_seq_ge by (by apply lookup_ge_None). done.
Qed.

(** X3. A sheet without rows has no signature, and the scan passes over its
    file in every mode without touching the buckets or the required
    signature. *)
Theorem empty_sheet_skipped (is_std : bool) (h_count : nat) (st : scan_state)
    (fpath : pystr) (wb : workbook) :
  load_workbook fpath = Some wb →
  ws_rows (wb_active wb) = [] →
  extract_headers (wb_active wb) h_count = []
  ∧ scan_file is_std h_count st fpath = Ok st.
Proof.
  intros Hload Hrows.
  assert (extract_headers (wb_active wb) h_count = []) as Hh.
  { unfold extract_headers, iter_rows. rewrite Hrows.
    by rewrite drop_nil, take_nil. }
  split; [done|]. unfold scan_file. rewrite Hload, Hh.
  by destruct (match ws_max_row _ with Some _ => _ | None => _ end).
Qed.

(** ** Rows and repeated rows *)

Lemma length_row_cells n r : length (row_cells n r) = n.
Proof. unfold row_cells. by rewrite length_fmap, length_seq. Qed.

Lemma scan_rows_length n fname seen rs :
  Forall (λ row : list pystr, length row = S n) (scan_rows n fname seen rs).
Proof.
  revert seen. induction rs as [|r rs IH]; intros seen; simpl; [constructor|].
  destruct (any_truthy r); simpl; [|apply IH].
  case_decide; [apply IH|]. constructor; [|apply IH].
  rewrite length_app, length_row_cells. simpl. lia.
Qed.

(** X4. The rows the scan takes from one file: each has one cell per column
    and the file name last, none was seen before, and no two are equal. *)
Theorem scan_rows_shape (n : nat) (fname : pystr) (seen : gset (list pystr))
    (rs : list (list cell)) :
  NoDup (scan_rows n fname seen rs)
  ∧ Forall (λ row, length row = S n ∧ last row = Some fname ∧ row ∉ seen)
           (scan_rows n fname seen rs).
Proof.
  revert seen. induction rs as [|r rs IH]; intros seen; simpl.
  { split; constructor. }
  destruct (any_truthy r); simpl; [|apply IH].
  case_decide as Hseen; [apply IH|].
  destruct (IH ({[row_cells n r ++ [fname]]} ∪ seen)) as [Hnd Hall].
  split.
  - apply NoDup_cons. split; [|done]. intros Hin.
    rewrite Forall_forall in Hall. destruct (Hall _ Hin) as (_ & _ & Hn).
    apply Hn. set_solver.
  - constructor.
    + split; [|split; [|done]].
      * rewrite length_app, length_row_cells. simpl. lia.
      * by rewrite last_snoc.
    + eapply Forall_impl; [exact Hall|]. intros row (? & ? & Hn).
      split; [done|]. split; [done|]. set_solver.
Qed.

Lemma scan_rows_unique_finalize_rows (n : nat) (fname : pystr)
    (seen : gset (list pystr)) (rs : list (list cell)) :
  scan_rows n fname seen rs = unique_rows seen (finalize_rows n fname rs).
Proof.
  revert seen. induction rs as [|r rs IH]; intros seen; simpl; [done|].
  destruct (any_truthy r); simpl; [|apply IH].
  case_decide; [apply IH | f_equal; apply IH].
Qed.

Lemma unique_rows_elem seen rows r :
  r ∈ unique_rows seen rows ↔ r ∈ rows ∧ r ∉ seen.
Proof.
  revert seen. induction rows as [|r0 rows IH]; intros seen; simpl.
  { split; [by inversion 1 | by intros [? _]]. }
  destruct (decide (r0 ∈ seen)) as [Hin|Hin].
  - rewrite IH, elem_of_cons. split; [tauto|]. intros [[->|?] ?]; [done | tauto].
  - rewrite !elem_of_cons, IH.
    destruct (decide (r = r0)) as [->|Hne]; [tauto|]. set_solver.
Qed.

Lemma unique_rows_NoDup seen rows : NoDup (unique_rows seen rows).
Proof.
  revert seen. induction rows as [|r0 rows IH]; intros seen; simpl; [constructor|].
  case_decide; [apply IH|]. apply NoDup_cons. split; [|apply IH].
  rewrite unique_rows_elem. set_solver.
Qed.

(** X5. [unique_rows] keeps the order, keeps one copy of every row that was
    not seen before, and nothing else. *)
Theorem unique_rows_spec (seen : gset (list pystr)) (rows : list (list pystr)) :
  NoDup (unique_rows seen rows)
  ∧ unique_rows seen rows `sublist_of` rows
  ∧ ∀ r, r ∈ unique_rows seen rows ↔ r ∈ rows ∧ r ∉ seen.
Proof.
  split; [apply unique_rows_NoDup|]. split; [|intros r; apply unique_rows_elem].
  revert seen. induction rows as [|r0 rows IH]; intros seen; simpl; [done|].
  case_decide; [by apply sublist_cons | by apply sublist_skip].
Qed.

(** X6. Rows without repetition pass through [unique_rows] unchanged, so a
    second pass changes nothing. *)
Theorem unique_rows_idempotent (rows : list (list pystr)) :
  unique_rows ∅ (unique_rows ∅ rows) = unique_rows ∅ rows.
Proof.
  assert (∀ (l : list (list pystr)) seen,
            NoDup l → (∀ r, r ∈ l → r ∉ seen) → unique_rows seen l = l) as Hid.
  { intros l seen Hnd. revert seen.
    induction Hnd as [|r l Hr Hnd IH]; intros seen Hfresh; simpl; [done|].
    rewrite decide_False by (apply Hfresh, list_elem_of_here).
    f_equal. apply IH. intros r' Hr'. rewrite not_elem_of_union, not_elem_of_singleton.
    split; [by intros -> | by apply Hfresh, list_elem_of_further]. }
  apply Hid; [apply unique_rows_NoDup|]. intros r _. apply not_elem_of_empty.
Qed.

(** ** The grouping pass on rows *)

(** X7. [run_fuzzy_logic] writes to the target column only: it returns as
    many rows, each as long as before and equal to the row it had outside
    the target column; without a target column it returns the rows as
    they are. *)
Theorem run_fuzzy_logic_touches_one_column (rows : list (list pystr))
    (headers : list pystr) (threshold : float) (target : pystr)
    (rows' : list (list pystr)) :
  run_fuzzy_logic rows headers threshold target = Some rows' →
  match list_find (λ h, Is_true (contains (lower h) (lower target))) headers with
  | None => rows' = rows
  | Some (col_idx, _) =>
      Forall2 (λ r r' : list pystr,
                 length r' = length r ∧ ∀ j, j ≠ col_idx → r' !! j = r !! j)
              rows rows'
  end.
Proof.
  unfold run_fuzzy_logic.
  destruct (list_find _ headers) as [[col_idx h]|]; [|by intros [= <-]].
  destruct (mapM _ rows) as [cells|]; [|done]. simpl.
  destruct (build_mapping _ _ _) as [mapping|]; [|done]. simpl.
  intros [= <-]. apply Forall2_fmap_r, Forall_Forall2_diag, Forall_forall.
  intros r _. simpl. destruct (mapping !! _) as [canon|]; [|done].
  case_decide; [done|]. split; [apply length_insert|].
  intros j Hj. by apply list_lookup_insert_ne.
Qed.

(** X8. When the target column is found, [run_fuzzy_logic] raises exactly
    when some row is too short to have a cell in that column. *)
Theorem run_fuzzy_logic_raises_iff (rows : list (list pystr)) (headers : list pystr)
    (threshold : float) (target : pystr) (col_idx : nat) (h : pystr) :
  list_find (λ h, Is_true (contains (lower h) (lower target))) headers = Some (col_idx, h) →
  run_fuzzy_logic rows headers threshold target = None
  ↔ Exists (λ r : list pystr, length r ≤ col_idx)%nat rows.
Proof.
  intros Hfind. unfold run_fuzzy_logic. rewrite Hfind.
  destruct (mapM (λ r : list pystr, r !! col_idx) rows) as [cells|] eqn:Hcells; simpl.
  - destruct (build_mapping_total (threshold * 100)%float ∅ (unique_vals_of cells)
                (unique_vals_nonempty cells)) as [mapping ->]. simpl.
    split; [done|]. intros Hex. apply mapM_Some_1 in Hcells.
    apply Exists_exists in Hex as (r & Hr & Hlen).
    apply list_elem_of_lookup in Hr as [i Hi].
    destruct (Forall2_lookup_l _ _ _ _ _ Hcells Hi) as (c & _ & Hc).
    apply lookup_lt_Some in Hc. lia.
  - split; [|done]. intros _. apply mapM_None_1 in Hcells.
    eapply Exists_impl; [exact Hcells|]. intros r Hr. by apply lookup_ge_None.
Qed.

Lemma run_fuzzy_logic_total rows headers threshold target :
  Forall (λ r : list pystr, length headers ≤ length r)%nat rows →
  is_Some (run_fuzzy_logic rows headers threshold target).
Proof.
  intros Hrows. unfold run_fuzzy_logic.
  destruct (list_find _ headers) as [[col_idx h]|] eqn:Hfind; [|eauto].
  apply list_find_Some in Hfind as (Hl%lookup_lt_Some & _).
  destruct (mapM (λ r : list pystr, r !! col_idx) rows) as [cells|] eqn:Hcells; simpl.
  - destruct (build_mapping_total (threshold * 100)%float ∅ (unique_vals_of cells)
                (unique_vals_nonempty cells)) as [mapping ->]. simpl. eauto.
  - apply mapM_None_1, Exists_exists in Hcells as (r & Hr & Hnone).
    rewrite Forall_forall in Hrows. specialize (Hrows _ Hr).
    apply lookup_ge_None in Hnone. lia.
Qed.

Lemma run_fuzzy_logic_lengths rows headers threshold target rows' :
  run_fuzzy_logic rows headers threshold target = Some rows' →
  Forall2 (λ r r' : list pystr, length r' = length r) rows rows'.
Proof.
  unfold run_fuzzy_logic.
  destruct (list_find _ headers) as [[col_idx h]|].
  2: { intros [= <-]. by apply Forall_Forall2_diag, Forall_forall. }
  destruct (mapM _ rows) as [cells|]; [|done]. simpl.
  destruct (build_mapping _ _ _) as [mapping|]; [|done]. simpl.
  intros [= <-]. apply Forall2_fmap_r, Forall_Forall2_diag, Forall_forall.
  intros r _. simpl. destruct (mapping !! _) as [canon|]; [|done].
  case_decide; [done | apply length_insert].
Qed.

(** ** The buckets of a scan *)

Lemma od_get_Forall_pair {K V} `{EqDecision K} (Q : K * V → Prop) (d : list (K * V)) k v :
  Forall Q d → od_get d k = Some v → Q (k, v).
Proof.
  intros Hd Hget. apply od_get_elem_of in Hget.
  rewrite Forall_forall in Hd. by apply Hd.
Qed.

Lemma scan_file_wf is_std h st fpath st' :
  scan_file is_std h st fpath = Ok st' →
  NoDup ((buckets st).*1) ∧ Forall bucket_wf (buckets st) →
  NoDup ((buckets st').*1) ∧ Forall bucket_wf (buckets st').
Proof.
  unfold scan_file. destruct (load_workbook fpath) as [wb|].
  2: { destruct is_std; [done|]. by intros [= <-]. }
  destruct (match ws_max_row _ with Some _ => _ | None => _ end); [by intros [= <-]|].
  destruct (extract_headers _ _) as [|c cs] eqn:Hcols; [by intros [= <-]|].
  match goal with |- context [match ?chk with Ok _ => _ | Raise _ => _ end] =>
    destruct chk as [first|e]; [|done] end.
  intros [= <-] [Hnd Hwf]. simpl. split.
  - rewrite od_set_keys. case_decide; [done|].
    apply NoDup_app. split; [done|]. split; [|apply NoDup_singleton].
    intros x Hx ->%list_elem_of_singleton. done.
  - apply od_set_Forall_pair; [done|].
    destruct (od_get (buckets st) (c :: cs)) as [b|] eqn:Hb; simpl.
    + destruct (od_get_Forall_pair bucket_wf _ _ _ Hwf Hb) as (? & Hc & ? & Hrows).
      simpl in *. split; [done|]. split; [done|]. split; [by destruct (b_files b)|].
      apply Forall_app. split; [done|].
      apply scan_rows_length.
    + split; [done|]. split; [done|]. split; [done|]. simpl.
      apply scan_rows_length.
Qed.

Lemma scan_files_wf is_std h st files st' :
  scan_files is_std h st files = Ok st' →
  NoDup ((buckets st).*1) ∧ Forall bucket_wf (buckets st) →
  NoDup ((buckets st').*1) ∧ Forall bucket_wf (buckets st').
Proof.
  revert st. induction files as [|f files IH]; intros st; simpl.
  - by intros [= <-].
  - destruct (scan_file is_std h st f) as [st1|e] eqn:Hf; [|done].
    intros Hrest Hwf. eapply IH; [done|]. by eapply scan_file_wf.
Qed.

Lemma fuzzy_buckets_wf cfg bs :
  Forall bucket_wf bs →
  ∃ bs', fuzzy_buckets cfg bs = Some bs' ∧ bs'.*1 = bs.*1 ∧ Forall bucket_wf bs'.
Proof.
  induction 1 as [|[sig b] bs (Hsig & Hc & Hf & Hrows) _ (bs' & Hbs' & Hk & Hwf)]; simpl.
  { exists []. by repeat split. }
  simpl in *.
  assert (∃ rows', (if is_fuzzy cfg
                    then run_fuzzy_logic (b_rows b) (b_cols b) (fuzzy_thresh cfg)
                           (target_col_name cfg)
                    else Some (b_rows b)) = Some rows'
                   ∧ Forall (λ r : list pystr, length r = S (length sig)) rows')
    as (rows' & -> & Hrows').
  { destruct (is_fuzzy cfg); [|eauto].
    destruct (run_fuzzy_logic_total (b_rows b) (b_cols b) (fuzzy_thresh cfg)
                (target_col_name cfg)) as [rows' Hrun].
    { rewrite Hc. eapply Forall_impl; [exact Hrows|]. intros r ->. lia. }
    exists rows'. split; [done|].
    apply run_fuzzy_logic_lengths in Hrun.
    clear Hc. induction Hrun as [|r r' l l' Hlen _ IH]; [done|].
    inv Hrows. constructor; [congruence | by apply IH]. }
  rewrite Hbs'. simpl. eexists. split; [done|]. split; [by rewrite !fmap_cons, Hk|].
  constructor; [|done]. by repeat split.
Qed.

Lemma scan_files_wf_of_scan cfg target_files bs :
  scan cfg target_files = Ok bs → NoDup (bs.*1) ∧ Forall bucket_wf bs.
Proof.
  unfold scan. intros Hscan.
  destruct (scan_files _ _ _ _) as [st|e] eqn:Hfiles; [|done].
  apply scan_files_wf in Hfiles as [Hnd Hwf]; [|split; constructor].
  destruct (fuzzy_buckets_wf cfg (buckets st) Hwf) as (bs' & Hbs' & Hk & Hwf').
  rewrite Hbs' in Hscan. injection Hscan as <-. by rewrite Hk.
Qed.

(** X9. What a scan that ends well hands over: buckets with distinct keys,
    each keyed by its own non-empty column list, fed by at least one
    file, and with rows of one cell per column plus the file name; in
    Standard mode there is at most one of them. *)
Theorem scan_buckets_wf (cfg : config) (target_files : list pystr)
    (bs : list (list pystr * bucket)) :
  scan cfg target_files = Ok bs →
  NoDup (bs.*1) ∧ Forall bucket_wf bs
  ∧ (cfg_mode cfg = Standard → (length bs ≤ 1)%nat).
Proof.
  intros Hscan. split; [|split; [|by apply (scan_payload cfg target_files)]];
    unfold scan in Hscan;
    destruct (scan_files _ _ _ _) as [st|e] eqn:Hfiles; try done;
    apply scan_files_wf in Hfiles as [Hnd Hwf]; try (split; constructor);
    destruct (fuzzy_buckets_wf cfg (buckets st) Hwf) as (bs' & Hbs' & Hk & Hwf');
    rewrite Hbs' in Hscan; injection Hscan as <-; [by rewrite Hk | done].
Qed.

(** X10. Normal mode is permissive: the scan always ends well.  A file that
    cannot be loaded is passed over, no signature is refused, and the
    grouping pass cannot raise on the rows of a bucket. *)
Theorem normal_scan_completes (cfg : config) (target_files : list pystr) :
  cfg_mode cfg = Normal →
  ∃ bs, scan cfg target_files = Ok bs.
Proof.
  intros Hmode. unfold scan.
  replace (bool_decide (cfg_mode cfg = Standard)) with false by (by rewrite Hmode).
  assert (∀ files st, ∃ st', scan_files false (scan_h_count cfg) st files = Ok st') as Hok.
  { induction files as [|f files IH]; intros st; simpl; [eauto|].
    assert (∃ st1, scan_file false (scan_h_count cfg) st f = Ok st1) as [st1 ->].
    { unfold scan_file. destruct (load_workbook f); [|eauto].
      destruct (match ws_max_row _ with Some _ => _ | None => _ end); [eauto|].
      destruct (extract_headers _ _); eauto. }
    apply IH. }
  destruct (Hok (sorted target_files)
              {| buckets := []; first_sig_standard := None |}) as [st Hst].
  rewrite Hst.
  apply scan_files_wf in Hst as [_ Hwf]; [|split; constructor].
  destruct (fuzzy_buckets_wf cfg (buckets st) Hwf) as (bs' & -> & _). eauto.
Qed.

(** ** The groups of the grouping pass *)

#[global] Instance len_le_total : Total len_le.
Proof. intros a b. unfold len_le. lia. Qed.

#[global] Instance len_le_trans : Transitive len_le.
Proof. intros a b c. unfold len_le. lia. Qed.

Lemma unique_vals_sorted cells : StronglySorted len_le (unique_vals_of cells).
Proof. unfold unique_vals_of. apply StronglySorted_merge_sort; apply _. Qed.

Ltac longer_cases :=
  repeat match goal with
    | |- context [decide ?P] => destruct (decide P)
    | |- context [if ?b then _ else _] => destruct b eqn:?
    end.

Lemma scan_longer_key rf s m longer m1 k x :
  scan_longer rf s m longer = Some m1 → m1 !! k = Some x →
  m !! k = Some x ∨ (k ∈ longer ∧ (x = SCHNEIDER_ELECTRIC ∨ x = s)).
Proof.
  revert m. induction longer as [|l longer IH]; intros m; simpl.
  { intros [= <-]. by left. }
  longer_cases; try done; intros Hs Hk;
    (destruct (IH _ Hs Hk) as [Hm|[Hin Hx]];
     [|right; split; [by apply list_elem_of_further | done]]);
    auto;
    (destruct (decide (l = k)) as [-> | Hne];
     [rewrite lookup_insert_eq in Hm; injection Hm as <-;
      right; split; [apply list_elem_of_here | auto]
     |rewrite lookup_insert_ne in Hm by done; auto]).
Qed.

Lemma visit_key rf m s rest m1 k x :
  visit rf m s rest = Some m1 → m1 !! k = Some x →
  m !! k = Some x ∨ ((k = s ∨ k ∈ rest) ∧ (x = SCHNEIDER_ELECTRIC ∨ x = s)).
Proof.
  assert (∀ v, v = SCHNEIDER_ELECTRIC ∨ v = s → <[s:=v]> m !! k = Some x →
            m !! k = Some x ∨ ((k = s ∨ k ∈ rest) ∧ (x = SCHNEIDER_ELECTRIC ∨ x = s)))
    as Hins.
  { intros v Hv Hy. destruct (decide (s = k)) as [-> | Hne].
    - rewrite lookup_insert_eq in Hy. injection Hy as <-. auto.
    - rewrite lookup_insert_ne in Hy by done. auto. }
  unfold visit. destruct (is_brand (lower s)).
  { intros [= <-]. apply Hins. auto. }
  destruct (decide (is_Some (m !! s))); [intros [= <-]; auto|].
  destruct (bool_decide _); [intros [= <-]; apply Hins; auto|].
  intros Hs Hk. destruct (scan_longer_key _ _ _ _ _ _ _ Hs Hk) as [Hm|[Hin Hx]].
  - apply (Hins s); auto.
  - auto.
Qed.

Lemma build_mapping_key rf m uv m' k x :
  StronglySorted len_le uv →
  build_mapping rf m uv = Some m' → m' !! k = Some x →
  m !! k = Some x
  ∨ (k ∈ uv ∧ (x = SCHNEIDER_ELECTRIC ∨ (x ∈ uv ∧ (length x ≤ length k)%nat))).
Proof.
  intros Hsorted. revert m.
  induction Hsorted as [|s rest Hsorted IH Hle]; intros m; simpl.
  { intros [= <-]. auto. }
  destruct (visit rf m s rest) as [m1|] eqn:Hv; [|done]. simpl. intros Hb Hk.
  destruct (IH _ Hb Hk) as [Hm1|(Hin & [-> | [Hx Hlen]])].
  - destruct (visit_key _ _ _ _ _ _ _ Hv Hm1) as [Hm | [Hks [-> | ->]]]; [by left| |].
    + right. split; [|by left]. destruct Hks as [-> | ?];
        [apply list_elem_of_here | by apply list_elem_of_further].
    + right. destruct Hks as [-> | Hks].
      * split; [apply list_elem_of_here|]. right.
        split; [apply list_elem_of_here | done].
      * split; [by apply list_elem_of_further|]. right.
        split; [apply list_elem_of_here|].
        rewrite Forall_forall in Hle. by apply Hle.
  - right. split; [by apply list_elem_of_further | by left].
  - right. split; [by apply list_elem_of_further|]. right.
    split; [by apply list_elem_of_further | done].
Qed.

(** X11. The grouping pass invents no value and lengthens none.  A row comes
    back as it was, or with its target cell replaced by a canonical
    value, which is the brand name or a non-empty stripped value of the
    target column that is no longer than the stripped cell it replaces. *)
Theorem run_fuzzy_logic_canonical_values (rows : list (list pystr))
    (headers : list pystr) (threshold : float) (target : pystr)
    (col_idx : nat) (h : pystr) (rows' : list (list pystr)) :
  list_find (λ h, Is_true (contains (lower h) (lower target))) headers = Some (col_idx, h) →
  run_fuzzy_logic rows headers threshold target = Some rows' →
  Forall2 (λ r r' : list pystr,
             r' = r
             ∨ ∃ canon,
                 r' = <[col_idx := canon]> r
                 ∧ (canon = SCHNEIDER_ELECTRIC
                    ∨ (canon ≠ []
                       ∧ (∃ r0 c0, r0 ∈ rows ∧ r0 !! col_idx = Some c0 ∧ strip c0 = canon)
                       ∧ (length canon ≤ length (strip (default [] (r !! col_idx))))%nat)))
          rows rows'.
Proof.
  intros Hfind. unfold run_fuzzy_logic. rewrite Hfind.
  destruct (mapM (λ r : list pystr, r !! col_idx) rows) as [cells|] eqn:Hcells; [|done].
  simpl. destruct (build_mapping _ _ _) as [mapping|] eqn:Hmap; [|done]. simpl.
  intros [= <-]. apply Forall2_fmap_r, Forall_Forall2_diag, Forall_forall.
  intros r _. simpl.
  destruct (mapping !! _) as [canon|] eqn:Hcanon; [|by left].
  case_decide; [by left|]. right. exists canon. split; [done|].
  destruct (build_mapping_key _ _ _ _ _ _ (unique_vals_sorted cells) Hmap Hcanon)
    as [Hempty | [_ [-> | [Hin Hlen]]]]; [done | by left | right].
  apply elem_of_unique_vals in Hin as (Hne & c & Hc & Hstrip).
  split; [done|]. split; [|done].
  apply mapM_Some_1 in Hcells.
  apply list_elem_of_lookup in Hc as [i Hi].
  destruct (Forall2_lookup_r _ _ _ _ _ Hcells Hi) as (r0 & Hr0 & Hc0).
  exists r0, c. split; [by eapply list_elem_of_lookup_2 | done].
Qed.

Lemma heads_fixed_insert (m : gmap pystr pystr) l v :
  heads_fixed m → m !! l = None →
  v = SCHNEIDER_ELECTRIC
  ∨ (v = l ∧ is_brand (lower l) = false)
  ∨ (m !! v = Some v ∧ is_brand (lower v) = false) →
  heads_fixed (<[l:=v]> m).
Proof.
  intros Hm Hl Hv k x Hk.
  assert (∀ y, m !! y = Some y → <[l:=v]> m !! y = Some y) as Hkeep.
  { intros y Hy. rewrite lookup_insert_ne; [done|]. intros ->. congruence. }
  destruct (decide (l = k)) as [-> | Hne].
  - rewrite lookup_insert_eq in Hk. injection Hk as <-.
    destruct Hv as [-> | [[-> Hb] | [Hv Hb]]]; [by left | right | right].
    + by rewrite lookup_insert_eq.
    + split; [by apply Hkeep | done].
  - rewrite lookup_insert_ne in Hk by done.
    destruct (Hm _ _ Hk) as [-> | [Hx Hb]]; [by left | right].
    split; [by apply Hkeep | done].
Qed.

Lemma heads_fixed_brand (m : gmap pystr pystr) s :
  heads_fixed m → is_brand (lower s) = true → heads_fixed (<[s:=SCHNEIDER_ELECTRIC]> m).
Proof.
  intros Hm Hs k x Hk. destruct (decide (s = k)) as [-> | Hne].
  - rewrite lookup_insert_eq in Hk. injection Hk as <-. by left.
  - rewrite lookup_insert_ne in Hk by done.
    destruct (Hm _ _ Hk) as [-> | [Hx Hb]]; [by left | right].
    split; [|done]. rewrite lookup_insert_ne; [done|]. intros ->. congruence.
Qed.

Lemma scan_longer_heads_fixed rf s m longer m1 :
  scan_longer rf s m longer = Some m1 →
  heads_fixed m → m !! s = Some s → is_brand (lower s) = false →
  heads_fixed m1.
Proof.
  intros Hs Hm Hms Hb. revert m Hs Hm Hms.
  induction longer as [|l longer IH]; intros m Hs Hm Hms; simpl in Hs.
  { by injection Hs as <-. }
  destruct (decide (is_Some (m !! l))) as [|Hl]; [by eapply IH|].
  apply eq_None_not_Some in Hl.
  assert (s ≠ l) as Hne by (intros ->; congruence).
  revert Hs. longer_cases; try done; intros Hs;
    try (by eapply IH);
    (eapply IH; [exact Hs | | by rewrite lookup_insert_ne]);
    apply heads_fixed_insert; auto.
Qed.

Lemma visit_heads_fixed rf m s rest m1 :
  visit rf m s rest = Some m1 → heads_fixed m → heads_fixed m1.
Proof.
  unfold visit. intros Hv Hm. destruct (is_brand (lower s)) eqn:Hb.
  { injection Hv as <-. by apply heads_fixed_brand. }
  destruct (decide (is_Some (m !! s))) as [|Hn]; [by injection Hv as <-|].
  apply eq_None_not_Some in Hn.
  assert (heads_fixed (<[s:=s]> m)) as Hins by (apply heads_fixed_insert; auto).
  destruct (bool_decide _); [by injection Hv as <-|].
  eapply scan_longer_heads_fixed; [exact Hv | done | apply lookup_insert_eq | done].
Qed.

(** X12. The grouping is a projection: in the mapping the loop builds, a
    canonical value other than the brand name is itself mapped to
    itself, so no value is sent to a value that is sent elsewhere. *)
Theorem grouping_heads_fixed (rf_threshold : float) (unique_vals : list pystr)
    (mapping : gmap pystr pystr) (k x : pystr) :
  build_mapping rf_threshold ∅ unique_vals = Some mapping →
  mapping !! k = Some x →
  x = SCHNEIDER_ELECTRIC ∨ mapping !! x = Some x.
Proof.
  intros Hb Hk.
  assert (heads_fixed mapping) as Hm.
  { assert (heads_fixed ∅) as H0 by (intros ? ? ?; done).
    revert Hb H0. generalize (∅ : gmap pystr pystr).
    induction unique_vals as [|s rest IH]; intros m; simpl.
    - by intros [= <-].
    - destruct (visit rf_threshold m s rest) as [m1|] eqn:Hv; [|done]. simpl.
      intros Hb Hm. eapply IH; [exact Hb|]. by eapply visit_heads_fixed. }
  destruct (Hm _ _ Hk) as [? | [? _]]; auto.
Qed.

Lemma scan_longer_prefix rf s m longer m1 l :
  scan_longer rf s m longer = Some m1 →
  l ∈ longer → m !! l = None →
  is_brand (lower l) = false →
  startswith (lower l) (lower s) = true →
  m1 !! l = Some s.
Proof.
  intros Hs Hl Hml Hb Hp. revert m Hs Hml.
  induction longer as [|x longer IH]; intros m Hs Hml; [by inv Hl|].
  destruct (decide (x = l)) as [-> | Hne].
  - simpl in Hs. rewrite decide_False in Hs by (rewrite Hml; by intros [? ?]).
    rewrite Hb, Hp in Hs. apply scan_longer_incl in Hs.
    rewrite map_subseteq_spec in Hs. apply Hs, lookup_insert_eq.
  - apply elem_of_cons in Hl as [-> | Hl]; [done|].
    simpl in Hs. revert Hs. longer_cases; try done; intros Hs;
      apply (IH Hl _ Hs); by rewrite ?lookup_insert_ne.
Qed.

(** X13. The prefix rule.  When the outer loop reaches an unassigned value
    [s] of at least two characters and a later value [l] is unassigned,
    carries no brand keyword and starts with [s] (both lower-cased), [l]
    is grouped under [s], whatever the threshold, the score and the
    lengths are. *)
Theorem prefix_rule (rf_threshold : float) (done rest : list pystr)
    (s l : pystr) (m : gmap pystr pystr) :
  [] ∉ done ++ s :: rest →
  l ∈ rest →
  mapping_after rf_threshold ∅ done (s :: rest) = Some m →
  m !! s = None → m !! l = None →
  is_brand (lower s) = false → (2 ≤ length s)%nat →
  is_brand (lower l) = false →
  startswith (lower l) (lower s) = true →
  ∃ final,
    build_mapping rf_threshold ∅ (done ++ s :: rest) = Some final
    ∧ final !! l = Some s ∧ final !! s = Some s.
Proof.
  intros Hne Hl Hm Hms Hml Hbs Hlen Hbl Hpre.
  destruct (build_mapping_total rf_threshold ∅ _ Hne) as [final Hfinal].
  exists final. split; [done|].
  rewrite build_mapping_app, Hm in Hfinal. simpl in Hfinal.
  assert (brand_consistent m) as Hbc.
  { eapply mapping_after_brand_consistent; [done | apply brand_consistent_empty]. }
  destruct (visit _ m s rest) as [m1|] eqn:Hv; [|done]. simpl in Hfinal.
  assert (brand_consistent m1) as Hbc1 by by eapply visit_brand_consistent.
  unfold visit in Hv. rewrite Hbs in Hv.
  rewrite decide_False in Hv by (rewrite Hms; by intros [? ?]).
  rewrite bool_decide_eq_false_2 in Hv by lia.
  destruct (build_mapping_incl _ _ _ _ Hfinal Hbc1) as [Hincl _].
  rewrite map_subseteq_spec in Hincl.
  assert (final !! s = Some s) as Hs.
  { apply Hincl. apply scan_longer_incl in Hv. rewrite map_subseteq_spec in Hv.
    apply Hv, lookup_insert_eq. }
  split; [|done]. destruct (decide (s = l)) as [<- | Hsl]; [done|].
  apply Hincl.
  eapply scan_longer_prefix; [exact Hv | done | by rewrite lookup_insert_ne | done..].
Qed.

(** ** Reading a Community sheet *)

Lemma trim_last_spec (cols : list pystr) :
  let last :=
    foldl (λ last (iv : nat * pystr),
             if bool_decide (iv.2 ≠ []) && negb (startswith (iv.2) (lit "Column_"))
             then (iv.1 + 1)%nat else last)
          0%nat (imap pair cols) in
  (last ≤ length cols)%nat
  ∧ Forall placeholder (drop last cols)
  ∧ (last = 0%nat
     ∨ ∃ c, cols !! (last - 1)%nat = Some c ∧ c ≠ []
            ∧ startswith c (lit "Column_") = false).
Proof.
  induction cols as [|x l IH] using rev_ind; simpl.
  { split; [lia|]. split; [constructor | by left]. }
  rewrite imap_app, foldl_app. simpl. rewrite Nat.add_0_r.
  destruct IH as (Hle & Hdrop & Hlast). rewrite length_app. simpl.
  destruct (bool_decide (x ≠ [])) eqn:Hx; simpl;
    [destruct (startswith x (lit "Column_")) eqn:Hsw; simpl|].
  - split; [lia|]. split.
    + rewrite drop_app_le by done. apply Forall_app. split; [done|].
      constructor; [by right | constructor].
    + destruct Hlast as [? | (c & Hc & ?)]; [by left | right].
      exists c. split; [|done]. by apply lookup_app_l_Some.
  - split; [lia|]. split.
    + rewrite drop_ge by (rewrite length_app; simpl; lia). constructor.
    + right. exists x. replace (length l + 1 - 1)%nat with (length l) by lia.
      rewrite list_lookup_middle by done. split; [done|].
      split; [by apply bool_decide_eq_true in Hx | done].
  - split; [lia|]. split.
    + rewrite drop_app_le by done. apply Forall_app. split; [done|].
      constructor; [|constructor]. left.
      apply bool_decide_eq_false in Hx. by destruct (decide (x = [])).
    + destruct Hlast as [? | (c & Hc & ?)]; [by left | right].
      exists c. split; [|done]. by apply lookup_app_l_Some.
Qed.

(** X14. [trim_cols] cuts a tail of placeholder columns and nothing else: the
    columns are the kept ones followed by placeholders, and when
    something is cut the last kept column has a real name. *)
Theorem trim_cols_spec (cols : list pystr) :
  ∃ dropped,
    cols = trim_cols cols ++ dropped
    ∧ Forall placeholder dropped
    ∧ (dropped = []
       ∨ ∃ c, last (trim_cols cols) = Some c ∧ c ≠ []
              ∧ startswith c (lit "Column_") = false).
Proof.
  unfold trim_cols. destruct (trim_last_spec cols) as (Hle & Hdrop & Hlast).
  revert Hle Hdrop Hlast. simpl.
  generalize (foldl (λ last (iv : nat * pystr),
             if bool_decide (iv.2 ≠ []) && negb (startswith (iv.2) (lit "Column_"))
             then (iv.1 + 1)%nat else last)
          0%nat (imap pair cols)).
  intros n Hle Hdrop Hlast. case_bool_decide as Hn.
  - exists (drop n cols). split; [by rewrite take_drop|]. split; [done|].
    right. destruct Hlast as [-> | (c & Hc & ?)]; [lia|].
    exists c. split; [|done].
    rewrite last_lookup, length_take, Nat.min_l by done.
    rewrite lookup_take_lt by lia. by replace (pred n) with (n - 1)%nat by lia.
  - exists []. split; [by rewrite app_nil_r|]. split; [constructor | by left].
Qed.

Lemma sheet_rows_tail n sesa_idx fname sheet_name seen rs :
  Forall (λ row : list pystr, ∃ cells, row = cells ++ [fname; sheet_name] ∧ length cells = n)
         (sheet_rows n sesa_idx fname sheet_name seen rs).
Proof.
  revert seen. induction rs as [|r rs IH]; intros seen; simpl; [constructor|].
  destruct (any_truthy r); simpl; [|apply IH].
  destruct (match sesa_idx with Some _ => _ | None => _ end); [apply IH|].
  case_decide; [apply IH|]. constructor; [|apply IH].
  exists (row_cells n r). split; [done | apply length_row_cells].
Qed.

(** X15. The rows [_read_sheet_table] takes from a sheet: no two are equal,
    none was seen before, each has one cell per column followed by the
    file name and the sheet name, and when the sheet has an identifier
    column the identifier of each row is not blank. *)
Theorem sheet_rows_shape (n : nat) (sesa_idx : option nat) (fname sheet_name : pystr)
    (seen : gset (list pystr)) (rs : list (list cell)) :
  NoDup (sheet_rows n sesa_idx fname sheet_name seen rs)
  ∧ Forall (λ row : list pystr,
              (row ∉ seen)
              ∧ (∃ cells, row = cells ++ [fname; sheet_name] ∧ length cells = n
                          ∧ ∀ i, sesa_idx = Some i → strip (default [] (cells !! i)) ≠ []))
           (sheet_rows n sesa_idx fname sheet_name seen rs).
Proof.
  revert seen. induction rs as [|r rs IH]; intros seen; simpl.
  { split; constructor. }
  destruct (any_truthy r); simpl; [|apply IH].
  destruct (match sesa_idx with Some _ => _ | None => _ end) eqn:Hblank; [apply IH|].
  case_decide as Hseen; [apply IH|].
  destruct (IH ({[row_cells n r ++ [fname; sheet_name]]} ∪ seen)) as [Hnd Hall].
  split.
  - apply NoDup_cons. split; [|done]. intros Hin.
    rewrite Forall_forall in Hall. destruct (Hall _ Hin) as [Hn _].
    apply Hn. set_solver.
  - constructor.
    + split; [done|]. exists (row_cells n r). split; [done|].
      split; [apply length_row_cells|]. intros i ->.
      apply orb_false_iff in Hblank as [_ Hb]. by apply bool_decide_eq_false in Hb.
    + eapply Forall_impl; [exact Hall|]. intros row [Hn ?]. split; [set_solver | done].
Qed.

(** ** The Community run *)

Lemma valid_workbook_sheets wb :
  is_community_workbook wb = true →
  Forall (λ s, is_Some (wb_get wb s)) required.
Proof.
  unfold is_community_workbook. intros [_ Hall]%andb_true_iff.
  rewrite forallb_forall in Hall. apply Forall_forall. intros s Hs.
  apply list_elem_of_In in Hs. specialize (Hall _ Hs).
  destruct (wb_get wb s); [eauto | done].
Qed.

Lemma read_sheets_total wb fname sheets tables :
  Forall (λ s, is_Some (wb_get wb s)) sheets →
  is_Some (read_sheets wb fname sheets tables).
Proof.
  intros Hall. revert tables.
  induction Hall as [|s sheets [ws Hws] _ IH]; intros tables; simpl; [eauto|].
  rewrite Hws. simpl. apply IH.
Qed.

(** X16. Community mode stops at the first workbook that is not a Community
    template: when the workbooks before it load and pass the check, the
    run fails with [InvalidTemplateError] for that file, and nothing
    after it is read. *)
Theorem community_invalid_template (cfg : config) (target_files pre rest : list pystr)
    (f : pystr) (wb : workbook) :
  cfg_mode cfg = Community →
  target_files = pre ++ f :: rest →
  Forall (λ g, ∃ wb', load_workbook g = Some wb' ∧ is_community_workbook wb' = true) pre →
  load_workbook f = Some wb →
  is_community_workbook wb = false →
  worker_process_files cfg target_files = Failed (InvalidTemplateError (basename f)).
Proof.
  intros Hmode -> Hpre Hload Hbad. unfold worker_process_files. rewrite Hmode.
  unfold community.
  assert (∀ tables, read_templates (pre ++ f :: rest) tables
                    = Raise (InvalidTemplateError (basename f))) as ->; [|done].
  induction Hpre as [|g pre (wb' & Hg & Hok) _ IH]; intros tables;
    cbn [app read_templates].
  - by rewrite Hload, Hbad.
  - rewrite Hg, Hok. cbn [negb].
    destruct (read_sheets_total wb' (basename g) required tables
                (valid_workbook_sheets wb' Hok)) as [tables' ->].
    apply IH.
Qed.

Lemma read_sheets_keys wb fname sheets tables tables' :
  read_sheets wb fname sheets tables = Some tables' →
  tables'.*1 = foldl (λ ks s, if decide (s ∈ ks) then ks else ks ++ [s]) (tables.*1) sheets.
Proof.
  revert tables. induction sheets as [|s sheets IH]; intros tables; simpl.
  { by intros [= <-]. }
  destruct (wb_get wb s) as [ws|]; [|done]. simpl.
  intros Hrest. rewrite (IH _ Hrest), od_set_keys. done.
Qed.

Lemma read_sheets_rows (R : pystr → list pystr → Prop) wb fname sheets tables tables' :
  read_sheets wb fname sheets tables = Some tables' →
  (∀ sheet cells, R sheet (cells ++ [fname; sheet])) →
  Forall (λ st, Forall (R (st.1)) (t_rows (st.2))) tables →
  Forall (λ st, Forall (R (st.1)) (t_rows (st.2))) tables'.
Proof.
  intros Hread HR. revert tables Hread.
  induction sheets as [|s sheets IH]; intros tables; simpl.
  { by intros [= <-]. }
  destruct (wb_get wb s) as [ws|]; [|done]. simpl.
  intros Hrest Htables. apply (IH _ Hrest).
  apply (od_set_Forall_pair (λ st, Forall (R (st.1)) (t_rows (st.2)))); [done|].
  simpl. apply Forall_app. split.
  - destruct (od_get tables s) as [t|] eqn:Ht; simpl; [|constructor].
    apply (od_get_Forall_pair (λ st, Forall (R (st.1)) (t_rows (st.2))) _ _ _ Htables Ht).
  - eapply Forall_impl; [apply sheet_rows_tail|]. intros row (cells & -> & _). apply HR.
Qed.

Lemma read_templates_rows (files : list pystr) target_files tables tables' :
  read_templates target_files tables = Ok tables' →
  (∀ f, f ∈ target_files → f ∈ files) →
  (tables.*1 = [] ∨ tables.*1 = required)
  ∧ Forall (λ st, Forall (λ r, ∃ cells f, f ∈ files ∧ r = cells ++ [basename f; st.1])
                         (t_rows (st.2))) tables →
  (tables'.*1 = [] ∨ tables'.*1 = required)
  ∧ Forall (λ st, Forall (λ r, ∃ cells f, f ∈ files ∧ r = cells ++ [basename f; st.1])
                         (t_rows (st.2))) tables'.
Proof.
  revert tables. induction target_files as [|f rest IH]; intros tables;
    cbn [read_templates].
  { by intros [= <-]. }
  destruct (load_workbook f) as [wb|]; [|done].
  destruct (is_community_workbook wb); [|done]. cbn [negb].
  destruct (read_sheets wb (basename f) required tables) as [tables1|] eqn:Hread; [|done].
  intros Hrest Hfiles [Hkeys Hrows]. apply (IH _ Hrest).
  { intros g Hg. by apply Hfiles, list_elem_of_further. }
  split.
  - right. rewrite (read_sheets_keys _ _ _ _ _ Hread).
    destruct Hkeys as [-> | ->]; vm_compute; reflexivity.
  - apply (read_sheets_rows
             (λ sheet r, ∃ cells g, g ∈ files ∧ r = cells ++ [basename g; sheet])
             _ _ _ _ _ Hread); [|done].
    intros sheet cells. exists cells, f. split; [|done]. apply Hfiles, list_elem_of_here.
Qed.

(** X17. What a Community run that ends well hands to the dashboard: the five
    required sheets in their fixed order, then the Community Master; and
    in each sheet table no row occurs twice and every row ends with the
    name of one of the given files and with the name of its sheet. *)
Theorem community_tables_provenance (cfg : config) (target_files : list pystr)
    (named : list (pystr * table)) :
  cfg_mode cfg = Community →
  worker_process_files cfg target_files = Done named →
  named.*1 = required ++ [COMMUNITY_MASTER]
  ∧ ∀ sheet t, (sheet, t) ∈ named → sheet ∈ required →
      NoDup (t_rows t)
      ∧ Forall (λ r, ∃ cells f, f ∈ target_files ∧ r = cells ++ [basename f; sheet])
               (t_rows t).
Proof.
  intros Hmode. unfold worker_process_files. rewrite Hmode. unfold community.
  destruct (read_templates target_files []) as [tables|e] eqn:Hread; [|done].
  destruct (read_templates_rows target_files _ _ _ Hread) as [Hkeys Hrows];
    [done | by split; [left | constructor] |].
  destruct tables as [|st tables]; [done|].
  destruct Hkeys as [Hkeys|Hkeys]; [done|].
  set (deduped := (λ st : pystr * table,
           (st.1, {| t_cols := t_cols (st.2); t_rows := unique_rows ∅ (t_rows (st.2)) |}))
          <$> st :: tables) in *.
  assert (deduped.*1 = required) as Hdk.
  { rewrite <- Hkeys. unfold deduped. rewrite <- !list_fmap_compose. done. }
  assert (COMMUNITY_MASTER ∉ deduped.*1) as Hfresh.
  { rewrite Hdk. apply (bool_decide_unpack _). by vm_compute. }
  destruct (build_master_table deduped) as [master|]; [|done].
  rewrite (od_set_fresh _ _ _ Hfresh). intros Hdone.
  assert (named = deduped ++ [(COMMUNITY_MASTER, master)]) as -> by congruence.
  clear Hdone. split; [by rewrite fmap_app, Hdk|].
  intros sheet t Hin Hreq. apply elem_of_app in Hin as [Hin|Hin].
  - unfold deduped in Hin. apply list_elem_of_fmap in Hin as ([sheet' t'] & [= -> ->] & Hin).
    rewrite Forall_forall in Hrows. specialize (Hrows _ Hin). simpl in *.
    split; [apply unique_rows_NoDup|].
    apply Forall_forall. intros r [Hr _]%unique_rows_elem.
    rewrite Forall_forall in Hrows. by apply Hrows.
  - apply list_elem_of_singleton in Hin as [= -> ->].
    exfalso. apply Hfresh. by rewrite Hdk.
Qed.

(** ** Naming the buckets *)

Lemma on_submit_from (entries : list ((list pystr * bucket) * (pystr * nat)))
    (used_names : gset pystr) (final_map : list (pystr * bucket)) :
  (∀ k, k ∈ final_map.*1 → k ∈ used_names) →
  on_submit entries used_names final_map
  = if decide (Forall (λ n, n ≠ [] ∧ n ∉ used_names) ((submitted <$> entries).*1)
               ∧ NoDup ((submitted <$> entries).*1))
    then Some (final_map ++ (submitted <$> entries)) else None.
Proof.
  revert used_names final_map.
  induction entries as [|[[sig data] [text hdr]] rest IH]; intros used fm Hfm.
  { rewrite decide_True by (split; constructor). simpl. by rewrite app_nil_r. }
  cbn [on_submit]. rewrite !fmap_cons. cbn [submitted fst snd].
  destruct (decide (strip text = [])) as [Hnil|Hnil].
  { rewrite decide_False; [done|]. intros [Hall _]. inv Hall. naive_solver. }
  destruct (decide (strip text ∈ used)) as [Hused|Hused].
  { rewrite decide_False; [done|]. intros [Hall _]. inv Hall. naive_solver. }
  rewrite IH.
  2: { intros k. rewrite od_set_keys. case_decide; [set_solver|].
       rewrite elem_of_app, list_elem_of_singleton. set_solver. }
  rewrite od_set_fresh by (intros Hin; by apply Hused, Hfm).
  rewrite <- app_assoc. simpl. apply decide_ext.
  rewrite Forall_cons, NoDup_cons, !Forall_forall.
  split.
  - intros [Hall Hnd]. split; [|split; [|done]].
    + split; [done|]. intros n Hn. specialize (Hall _ Hn). set_solver.
    + intros Hin. specialize (Hall _ Hin). set_solver.
  - intros [[_ Hall] [Hnotin Hnd]]. split; [|done].
    intros n Hn. specialize (Hall _ Hn). split; [tauto|].
    rewrite not_elem_of_union, not_elem_of_singleton. split; [|tauto].
    intros ->. done.
Qed.

(** X18. [on_submit] accepts the names of the dialog exactly when, once
    stripped, none is empty and no two are equal; it then hands over the
    buckets in their order, each under its stripped name and with the
    header-row count chosen for it.  Otherwise it hands over nothing. *)
Theorem on_submit_spec (entries : list ((list pystr * bucket) * (pystr * nat))) :
  on_submit entries ∅ []
  = if decide (([] ∉ (submitted <$> entries).*1) ∧ NoDup ((submitted <$> entries).*1))
    then Some (submitted <$> entries) else None.
Proof.
  rewrite on_submit_from by (intros k Hk; by apply elem_of_nil in Hk).
  simpl. apply decide_ext. rewrite Forall_forall. split.
  - intros [Hall Hnd]. split; [|done]. intros Hin. by destruct (Hall _ Hin).
  - intros [Hnil Hnd]. split; [|done]. intros n Hn.
    split; [by intros -> | apply not_elem_of_empty].
Qed.

(** ** The scan and the finalize re-read *)

Lemma signature_of_Some h f sig :
  signature_of h f = Some (Some sig) →
  ∃ wb, load_workbook f = Some wb ∧ extract_headers (wb_active wb) h = sig ∧ sig ≠ [].
Proof.
  unfold signature_of. destruct (load_workbook f) as [wb|]; [|done]. simpl.
  destruct (match ws_max_row _ with Some _ => _ | None => _ end); [done|].
  destruct (extract_headers (wb_active wb) h) as [|c cs] eqn:Hsig; [done|].
  intros [= <-]. by exists wb.
Qed.

Lemma finalize_rows_length n fname rs :
  Forall (λ row : list pystr, length row = S n) (finalize_rows n fname rs).
Proof.
  induction rs as [|r rs IH]; simpl; [constructor|].
  destruct (any_truthy r); simpl; [|done]. constructor; [|done].
  rewrite length_app, length_row_cells. simpl. lia.
Qed.

Lemma file_rows_of_length h f sig :
  signature_of h f = Some (Some sig) →
  Forall (λ row : list pystr, length row = S (length sig)) (file_rows_of h f).
Proof.
  intros (wb & Hwb & <- & _)%signature_of_Some.
  unfold file_rows_of. rewrite Hwb. apply finalize_rows_length.
Qed.

Lemma scan_file_src is_std h st fpath st' :
  scan_file is_std h st fpath = Ok st' →
  Forall (bucket_src h) (buckets st) → Forall (bucket_src h) (buckets st').
Proof.
  unfold scan_file.
  destruct (load_workbook fpath) as [wb|] eqn:Hwb.
  2: { destruct is_std; [done|]. by intros [= <-]. }
  destruct (match ws_max_row _ with Some _ => _ | None => _ end) eqn:Hmax;
    [by intros [= <-]|].
  destruct (extract_headers _ _) as [|c cs] eqn:Hcols; [by intros [= <-]|].
  match goal with |- context [match ?chk with Ok _ => _ | Raise _ => _ end] =>
    destruct chk as [first|e]; [|done] end.
  intros [= <-] Hsrc. cbn [buckets].
  assert (signature_of h fpath = Some (Some (c :: cs))) as Hsig.
  { unfold signature_of. rewrite Hwb. simpl. by rewrite Hmax, Hcols. }
  assert (scan_rows (length (c :: cs)) (basename fpath) ∅
            (iter_rows (wb_active wb) (h + 1) None)
          = unique_rows ∅ (file_rows_of h fpath)) as Hrows.
  { unfold file_rows_of. rewrite Hwb, Hcols. apply scan_rows_unique_finalize_rows. }
  remember (unique_rows ∅ (file_rows_of h fpath)) as block eqn:Hblock.
  simpl in Hrows.
  apply od_set_Forall_pair; [done|]. unfold bucket_src. cbn [fst snd b_files b_rows].
  rewrite Hrows, bind_app, Hblock.
  replace ([fpath] ≫= λ f, unique_rows ∅ (file_rows_of h f))
    with (unique_rows ∅ (file_rows_of h fpath)) by (simpl; by rewrite app_nil_r).
  clear Hrows Hblock.
  destruct (od_get (buckets st) (c :: cs)) as [b|] eqn:Hb;
    cbn [default from_option id b_files b_rows].
  - destruct (od_get_Forall_pair (bucket_src h) _ _ _ Hsrc Hb) as [Hfiles Hbrows].
    cbn [fst snd] in *. split; [|by rewrite Hbrows].
    apply Forall_app. split; [done|]. by constructor.
  - split; [|done]. by constructor.
Qed.

Lemma scan_files_src is_std h st files st' :
  scan_files is_std h st files = Ok st' →
  Forall (bucket_src h) (buckets st) → Forall (bucket_src h) (buckets st').
Proof.
  revert st. induction files as [|f files IH]; intros st; simpl.
  - by intros [= <-].
  - destruct (scan_file is_std h st f) as [st1|e] eqn:Hf; [|done].
    intros Hrest Hsrc. eapply IH; [done|]. by eapply scan_file_src.
Qed.

Lemma reread_files_src h files sig new_cols new_rows :
  Forall (λ f, signature_of h f = Some (Some sig)) files →
  reread_files h files new_cols new_rows
  = Some (match files with [] => new_cols | _ => Some (default sig new_cols) end,
          new_rows ++ (files ≫= file_rows_of h)).
Proof.
  intros Hfiles. revert new_cols new_rows.
  induction Hfiles as [|f files Hf _ IH]; intros new_cols new_rows.
  { simpl. by rewrite app_nil_r. }
  destruct (signature_of_Some _ _ _ Hf) as (wb & Hwb & Hsig & Hne).
  cbn [reread_files]. rewrite Hwb. simpl. rewrite Hsig.
  destruct sig as [|c cs]; [done|]. rewrite IH.
  unfold file_rows_of at 2. rewrite Hwb, Hsig, <- app_assoc.
  f_equal. f_equal. destruct files; [done|]. by destruct new_cols.
Qed.

Lemma fuzzy_buckets_off cfg bs :
  is_fuzzy cfg = false → fuzzy_buckets cfg bs = Some bs.
Proof.
  intros Hoff. induction bs as [|[sig [cols rows files hdr]] bs IH]; simpl; [done|].
  rewrite Hoff, IH. done.
Qed.

Lemma scan_src cfg target_files bs :
  scan cfg target_files = Ok bs →
  Forall (λ sb, Forall (λ f, signature_of (scan_h_count cfg) f = Some (Some (sb.1)))
                       (b_files (sb.2))) bs
  ∧ (is_fuzzy cfg = false → Forall (bucket_src (scan_h_count cfg)) bs).
Proof.
  unfold scan.
  destruct (scan_files _ _ _ _) as [st|e] eqn:Hfiles; [|done].
  apply scan_files_src in Hfiles; [|constructor]. simpl in Hfiles.
  destruct (fuzzy_buckets cfg (buckets st)) as [bs'|] eqn:Hfz; [|done].
  intros [= <-]. split.
  - apply fuzzy_buckets_shape in Hfz.
    induction Hfz as [|sb sb' l l' (Hk & Hf & _) _ IH]; [constructor|].
    inv Hfiles. constructor; [|by apply IH].
    rewrite <- Hk, <- Hf. by destruct H1.
  - intros Hoff. rewrite (fuzzy_buckets_off _ _ Hoff) in Hfz. by injection Hfz as <-.
Qed.

(** X19. Standard mode has three ways to end.  The scan fails and the run
    with it; or no file gave a bucket and there is no data; or the one
    bucket is named Main Table without asking and re-read, which cannot
    fail: the table has the common signature as its columns and rows of
    one cell per column plus the file name.  The run never asks for
    names, never hits the limit on structures, and is never cancelled.
    (The scan and the re-read load the files through the same
    [load_workbook].) *)
Theorem standard_mode_outcome (cfg : config) (target_files : list pystr) :
  cfg_mode cfg = Standard →
  match scan cfg target_files with
  | Raise e => worker_process_files cfg target_files = Failed e
  | Ok [] => worker_process_files cfg target_files = NoData
  | Ok ((sig, b) :: _) =>
      ∃ t, worker_process_files cfg target_files = Done [(lit "Main Table", t)]
           ∧ t_cols t = sig
           ∧ Forall (λ r : list pystr, length r = S (length sig)) (t_rows t)
  end.
Proof.
  intros Hmode. unfold worker_process_files. rewrite Hmode.
  destruct (scan cfg target_files) as [bs|e] eqn:Hscan; [|done].
  destruct (scan_payload _ _ _ Hscan) as [Hun Hone]. specialize (Hone Hmode).
  destruct (scan_src _ _ _ Hscan) as [Hsrc _].
  destruct (scan_files_wf_of_scan cfg target_files bs Hscan) as [_ Hwf].
  destruct bs as [|[sig b] [|? ?]]; [done| |simpl in Hone; lia].
  inv Hun. inv Hsrc. inv Hwf. simpl in *.
  match goal with H : bucket_wf _ |- _ => destruct H as (Hsig & _ & Hfiles & _) end.
  simpl in *. unfold prompt_table_names. simpl. rewrite Hmode. simpl.
  unfold finalize_export, auto_named. simpl. unfold rebuild.
  match goal with H : b_header_rows b = None |- _ => rewrite H end. simpl.
  assert (scan_h_count cfg = 1%nat) as Hh by (unfold scan_h_count; by rewrite Hmode).
  rewrite Hh in *.
  unfold rebuild_at.
  match goal with H : Forall _ (b_files b) |- _ =>
    rewrite (reread_files_src _ _ _ None [] H); rename H into Hsrc end.
  assert (Forall (λ r : list pystr, length r = S (length sig))
                 (b_files b ≫= file_rows_of 1)) as Hlen.
  { apply Forall_forall. intros r (f & Hr & Hf)%list_elem_of_bind.
    rewrite Forall_forall in Hsrc.
    pose proof (file_rows_of_length _ _ _ (Hsrc _ Hf)) as Hall.
    rewrite Forall_forall in Hall. by apply Hall. }
  replace (match b_files b with [] => None | _ :: _ => Some (default sig None) end)
    with (Some sig) by (by destruct (b_files b)).
  revert Hlen. generalize (b_files b ≫= file_rows_of 1). intros rows Hlen.
  cbn [mbind option_bind app default from_option id].
  destruct (is_fuzzy cfg).
  - destruct (run_fuzzy_logic_total rows sig (fuzzy_thresh cfg) (target_col_name cfg))
      as [rows' Hrun].
    { eapply Forall_impl; [exact Hlen|]. intros r ->. lia. }
    rewrite Hrun. eexists. split; [done|]. split; [done|]. simpl.
    apply run_fuzzy_logic_lengths in Hrun.
    induction Hrun as [|r r' l l' Hr _ IH]; [done|].
    inv Hlen. constructor; [congruence | by apply IH].
  - eexists. split; [done|]. by split.
Qed.

(** X20. Repeated rows come back at the export.  When the scan counts one
    header row, grouping is off and the scan gives one bucket, the run
    ends with the table Main Table whose rows are all data rows of the
    files of the bucket, in order, repeated rows included, while the
    rows of the scanned bucket are the same rows with the repetitions
    inside each file removed.  (The scan and the re-read load the files
    through the same [load_workbook].) *)
Theorem finalize_restores_repeated_rows (cfg : config) (target_files : list pystr)
    (sig : list pystr) (b : bucket) :
  cfg_mode cfg = Standard ∨ cfg_mode cfg = Normal →
  scan_h_count cfg = 1%nat →
  is_fuzzy cfg = false →
  scan cfg target_files = Ok [(sig, b)] →
  worker_process_files cfg target_files
  = Done [(lit "Main Table",
           {| t_cols := sig; t_rows := b_files b ≫= file_rows_of 1 |})]
  ∧ b_rows b = b_files b ≫= (λ f, unique_rows ∅ (file_rows_of 1 f)).
Proof.
  intros Hmode Hh Hoff Hscan.
  destruct (scan_payload _ _ _ Hscan) as [Hun _].
  destruct (scan_src _ _ _ Hscan) as [_ Hsrc]. specialize (Hsrc Hoff).
  destruct (scan_files_wf_of_scan cfg target_files _ Hscan) as [_ Hwf].
  rewrite Hh in Hsrc. inv Hun. inv Hsrc. inv Hwf. simpl in *.
  match goal with H : bucket_wf _ |- _ => destruct H as (Hsig & _ & Hfiles & _) end.
  match goal with H : bucket_src _ _ |- _ => destruct H as [Hsrc Hrows] end.
  simpl in *. split; [|done].
  assert (worker_process_files cfg target_files = prompt_table_names cfg [(sig, b)]) as ->.
  { unfold worker_process_files. rewrite Hscan. by destruct Hmode as [-> | ->]. }
  unfold prompt_table_names. simpl. rewrite orb_true_r.
  unfold finalize_export, auto_named. simpl. unfold rebuild.
  match goal with H : b_header_rows b = None |- _ => rewrite H end. simpl.
  unfold rebuild_at. rewrite (reread_files_src _ _ _ None [] Hsrc).
  replace (match b_files b with [] => None | _ :: _ => Some (default sig None) end)
    with (Some sig) by (by destruct (b_files b)).
  rewrite Hoff. done.
Qed.

(** ** Header signatures over several rows *)

Lemma omap_all_None {A B} (f : A → option B) (l : list A) :
  Forall (λ x, f x = None) l → omap f l = [].
Proof.
  induction 1 as [|x l Hx _ IH]; [done|].
  change (omap f (x :: l)) with (match f x with Some y => y :: omap f l | None => omap f l end).
  by rewrite Hx.
Qed.

(** X21. Whatever number of header rows is combined, the signature has one
    name per cell of the first row, and a column in which none of the
    header rows holds a value is named [Column_<n>], [n] counting from 1. *)
Theorem extract_headers_columns (ws : worksheet) (h : nat) (r0 : list cell)
    (rest : list (list cell)) :
  ws_rows ws = r0 :: rest →
  (0 < h)%nat →
  length (extract_headers ws h) = length r0
  ∧ ∀ c, (c < length r0)%nat →
      Forall (λ r : list cell, truthy (default CNone (r !! c)) = false)
             (take h (r0 :: rest)) →
      extract_headers ws h !! c = Some (lit "Column_" ++ str_Z (Z.of_nat (c + 1))).
Proof.
  intros Hrows Hh. unfold extract_headers, iter_rows. rewrite Hrows.
  replace (h + 1 - 1)%nat with h by lia. rewrite drop_0.
  destruct h as [|h']; [lia|]. rewrite firstn_cons.
  split; [by rewrite length_fmap, length_seq|].
  intros c Hc Hblank. rewrite list_lookup_fmap, lookup_seq_lt by done.
  cbn [fmap option_fmap option_map Nat.add]. f_equal.
  rewrite omap_all_None; [done|].
  apply Forall_forall. intros r_idx _.
  destruct ((r0 :: take h' rest) !! r_idx) as [r|] eqn:Hr; [|done]. simpl.
  destruct (r !! c) as [v|] eqn:Hv; [|done]. simpl.
  rewrite Forall_forall in Hblank.
  specialize (Hblank r (list_elem_of_lookup_2 _ _ _ Hr)).
  rewrite Hv in Hblank. simpl in Hblank. by rewrite Hblank.
Qed.

(** ** The file counts of the dashboard *)

Lemma od_get_of_elem {K V} `{EqDecision K} (d : list (K * V)) k v :
  NoDup (d.*1) → (k, v) ∈ d → od_get d k = Some v.
Proof.
  induction d as [|[k' v'] d IH]; simpl; [by inversion 2|].
  intros [Hk Hnd]%NoDup_cons [[= -> ->] | Hin]%elem_of_cons.
  - by rewrite decide_True.
  - rewrite decide_False; [by apply IH|]. intros ->. apply Hk.
    apply list_elem_of_fmap. by exists (k, v).
Qed.




(** X23. Building the dashboard data of a table raises exactly when the table
    has a row without cells. *)
Theorem table_js_of_raises_iff (data : table) :
  table_js_of data = None ↔ [] ∈ t_rows data.
Proof.
  unfold table_js_of.
  assert (∀ rows fc, count_files fc rows = None ↔ [] ∈ rows) as Hnone.
  { induction rows as [|r rows IH]; intros fc; simpl.
    - split; [done | by intros ?%elem_of_nil].
    - destruct (last r) as [fn|] eqn:Hlast; simpl.
      + rewrite IH, elem_of_cons. split; [auto|]. intros [<- | ?]; [done | done].
      + apply last_None in Hlast as ->. split; [intros _; apply list_elem_of_here | done]. }
  destruct (count_files [] (t_rows data)) as [fc|] eqn:Hfc; simpl.
  - split; [done|]. intros Hin. apply (Hnone _ []) in Hin. congruence.
  - split; [|done]. intros _. by apply (Hnone _ []).
Qed.

(** ** Which file goes to which bucket *)

Lemma scan_file_files is_std h st fpath st' sig :
  scan_file is_std h st fpath = Ok st' →
  files_of (buckets st') sig
  = files_of (buckets st) sig
    ++ (if decide (signature_of h fpath = Some (Some sig)) then [fpath] else []).
Proof.
  unfold scan_file, signature_of.
  destruct (load_workbook fpath) as [wb|] eqn:Hwb; cbn [mbind option_bind].
  2: { destruct is_std; [done|]. intros [= <-].
       rewrite decide_False by done. by rewrite app_nil_r. }
  destruct (match ws_max_row _ with Some _ => _ | None => _ end) eqn:Hmax.
  { intros [= <-]. rewrite decide_False by done. by rewrite app_nil_r. }
  destruct (extract_headers _ _) as [|c cs] eqn:Hcols.
  { intros [= <-]. rewrite decide_False by done. by rewrite app_nil_r. }
  match goal with |- context [match ?chk with Ok _ => _ | Raise _ => _ end] =>
    destruct chk as [first|e]; [|done] end.
  intros [= <-]. cbn [buckets]. unfold files_of.
  destruct (decide (c :: cs = sig)) as [<-|Hne].
  - rewrite od_get_set_eq, decide_True by done. cbn [fmap option_fmap option_map b_files].
    by destruct (od_get (buckets st) (c :: cs)).
  - rewrite od_get_set_ne by done. rewrite decide_False by congruence.
    by rewrite app_nil_r.
Qed.

Lemma scan_files_files is_std h st files st' sig :
  scan_files is_std h st files = Ok st' →
  files_of (buckets st') sig
  = files_of (buckets st) sig
    ++ filter (λ f, signature_of h f = Some (Some sig)) files.
Proof.
  revert st. induction files as [|f files IH]; intros st; simpl.
  { intros [= <-]. by rewrite app_nil_r. }
  destruct (scan_file is_std h st f) as [st1|e] eqn:Hf; [|done].
  intros Hrest. rewrite (IH _ Hrest), (scan_file_files _ _ _ _ _ sig Hf), <- app_assoc.
  f_equal. rewrite filter_cons. by case_decide.
Qed.

Lemma fuzzy_buckets_files cfg bs bs' sig :
  fuzzy_buckets cfg bs = Some bs' → files_of bs' sig = files_of bs sig.
Proof.
  intros Hfz%fuzzy_buckets_shape. unfold files_of.
  induction Hfz as [|[k b] [k' b'] l l' (Hk & Hf & _) _ IH]; [done|].
  simpl in *. subst k'. case_decide; [simpl; congruence | done].
Qed.

(** X24. The bucketing is by signature and nothing else.  After a scan that
    ends well, the bucket of a signature holds exactly the given files
    that have this signature, in sorted order, and every file that has a
    signature is in the bucket of that signature. *)
Theorem scan_bucket_files (cfg : config) (target_files : list pystr)
    (bs : list (list pystr * bucket)) :
  scan cfg target_files = Ok bs →
  (∀ sig b, (sig, b) ∈ bs →
     b_files b
     = filter (λ f, signature_of (scan_h_count cfg) f = Some (Some sig))
              (sorted target_files))
  ∧ (∀ f sig, f ∈ target_files →
       signature_of (scan_h_count cfg) f = Some (Some sig) →
       ∃ b, (sig, b) ∈ bs ∧ f ∈ b_files b).
Proof.
  intros Hscan.
  destruct (scan_files_wf_of_scan _ _ _ Hscan) as [Hnd _].
  assert (∀ sig, files_of bs sig
                 = filter (λ f, signature_of (scan_h_count cfg) f = Some (Some sig))
                          (sorted target_files)) as Hfiles.
  { intros sig. unfold scan in Hscan.
    destruct (scan_files _ _ _ _) as [st|e] eqn:Hsf; [|done].
    destruct (fuzzy_buckets cfg (buckets st)) as [bs'|] eqn:Hfz; [|done].
    injection Hscan as <-.
    by rewrite (fuzzy_buckets_files _ _ _ _ Hfz), (scan_files_files _ _ _ _ _ sig Hsf). }
  split.
  - intros sig b Hin. rewrite <- Hfiles. unfold files_of.
    by rewrite (od_get_of_elem _ _ _ Hnd Hin).
  - intros f sig Hf Hsig.
    assert (f ∈ files_of bs sig) as Hin.
    { rewrite Hfiles. apply list_elem_of_filter. split; [done|].
      by apply elem_of_sorted. }
    unfold files_of in Hin. destruct (od_get bs sig) as [b|] eqn:Hb.
    + exists b. split; [by apply od_get_elem_of | done].
    + by apply elem_of_nil in Hin.
Qed.

(** ** One table per named bucket *)

Lemma rebuild_all_tables cfg named_buckets rebuilt rebuilt' :
  NoDup (rebuilt.*1 ++ named_buckets.*1) →
  rebuild_all cfg named_buckets rebuilt = Some rebuilt' →
  ∃ tables,
    rebuilt' = rebuilt ++ tables
    ∧ Forall2 (λ (nb : pystr * bucket) (nt : pystr * table),
                 nt.1 = nb.1 ∧ rebuild cfg (nb.2) = Some (nt.2))
              named_buckets tables.
Proof.
  revert rebuilt. induction named_buckets as [|[name data] rest IH]; intros rebuilt; simpl.
  { intros _ [= <-]. exists []. by rewrite app_nil_r. }
  intros Hnd. destruct (rebuild cfg data) as [t|] eqn:Ht; [|done]. simpl.
  assert (name ∉ rebuilt.*1) as Hfresh.
  { apply NoDup_app in Hnd as (_ & Hdisj & _). intros Hin.
    apply (Hdisj _ Hin), list_elem_of_here. }
  rewrite (od_set_fresh _ _ _ Hfresh). intros Hrest.
  destruct (IH (rebuilt ++ [(name, t)])) as (tables & -> & Hall); [|done|].
  { rewrite fmap_app, <- app_assoc. done. }
  exists ((name, t) :: tables). split; [by rewrite <- app_assoc|].
  constructor; [done | done].
Qed.

(** X25. The export gives one table per named bucket: under distinct names
    [finalize_export] is cancelled exactly when it is given no bucket,
    and when it ends well the tables come in the order of the buckets,
    each under the name of its bucket and rebuilt from the files of that
    bucket alone. *)
Theorem finalize_export_tables (cfg : config) (named_buckets : list (pystr * bucket)) :
  NoDup (named_buckets.*1) →
  (finalize_export cfg named_buckets = Cancelled ↔ named_buckets = [])
  ∧ ∀ rebuilt,
      finalize_export cfg named_buckets = Done rebuilt →
      Forall2 (λ (nb : pystr * bucket) (nt : pystr * table),
                 nt.1 = nb.1 ∧ rebuild cfg (nb.2) = Some (nt.2))
              named_buckets rebuilt.
Proof.
  intros Hnd. unfold finalize_export.
  destruct named_buckets as [|nb rest] eqn:Hnb; [by split|]. rewrite <- Hnb in *.
  destruct (rebuild_all cfg named_buckets []) as [rebuilt|] eqn:Hall.
  - split; [split; [done | by rewrite Hnb]|]. intros ? [= <-].
    by destruct (rebuild_all_tables cfg named_buckets [] _ Hnd Hall) as (tables & -> & ?).
  - split; [split; [done | by rewrite Hnb]|]. done.
Qed.

End Further.

(** ** Instances of the further properties *)

Lemma extract_headers_one_witness :
  @extract_headers community_runtime (sheet_of [[T "Name"; CNone]; [T "Ann"; T "Chair"]]) 1
  = imap (λ i v, if truthy v then @header_part community_runtime v
                 else lit "Column_" ++ str_Z (Z.of_nat (i + 1))) [T "Name"; CNone].
Proof.
  apply (@extract_headers_one community_runtime _ _ [[T "Ann"; T "Chair"]]).
  reflexivity.
Defined.

Lemma empty_sheet_skipped_witness :
  @extract_headers (example_runtime 0%float empty_sheet_disk) (sheet_of []) 1 = []
  ∧ @scan_file (example_runtime 0%float empty_sheet_disk) true 1
      {| buckets := []; first_sig_standard := None |} (lit "a.xlsx")
    = Ok {| buckets := []; first_sig_standard := None |}.
Proof.
  apply (@empty_sheet_skipped (example_runtime 0%float empty_sheet_disk) true 1
           {| buckets := []; first_sig_standard := None |} (lit "a.xlsx") (book_of []));
    reflexivity.
Defined.

Lemma run_fuzzy_logic_touches_one_column_witness :
  Forall2 (λ r r' : list pystr,
             length r' = length r ∧ ∀ j, j ≠ 0%nat → r' !! j = r !! j)
          company_rows
          [[lit "Siemens AG"; lit "a.xlsx"]; [lit "Siemens AG"; lit "a.xlsx"]].
Proof.
  apply (@run_fuzzy_logic_touches_one_column (example_runtime 85%float [])
           company_rows [lit "Company"] 0.85%float (lit "Company")).
  vm_compute. reflexivity.
Defined.

Lemma run_fuzzy_logic_raises_iff_witness :
  @run_fuzzy_logic (example_runtime 85%float []) [[lit "Siemens AG"]; []]
    [lit "Company"] 0.85%float (lit "Company") = None
  ↔ Exists (λ r : list pystr, length r ≤ 0)%nat [[lit "Siemens AG"]; []].
Proof.
  apply (@run_fuzzy_logic_raises_iff (example_runtime 85%float [])
           [[lit "Siemens AG"]; []] [lit "Company"] 0.85%float (lit "Company")
           0%nat (lit "Company")).
  vm_compute. reflexivity.
Defined.

Lemma scan_buckets_wf_witness :
  NoDup (repeated_row_buckets.*1) ∧ Forall bucket_wf repeated_row_buckets
  ∧ (cfg_mode (example_config Standard 1) = Standard
     → (length repeated_row_buckets ≤ 1)%nat).
Proof.
  apply (@scan_buckets_wf (example_runtime 0%float repeated_row_disk)
           (example_config Standard 1) [lit "a.xlsx"]).
  vm_compute. reflexivity.
Defined.

Lemma normal_scan_completes_witness :
  ∃ bs, @scan (example_runtime 0%float renamed_column_disk) (example_config Normal 1)
          [lit "f1.xlsx"; lit "f2.xlsx"; lit "missing.xlsx"] = Ok bs.
Proof.
  apply (@normal_scan_completes (example_runtime 0%float renamed_column_disk)).
  reflexivity.
Defined.

Lemma run_fuzzy_logic_canonical_values_witness :
  Forall2 (λ r r' : list pystr,
             r' = r
             ∨ ∃ canon,
                 r' = <[0%nat := canon]> r
                 ∧ (canon = SCHNEIDER_ELECTRIC
                    ∨ (canon ≠ []
                       ∧ (∃ r0 c0, r0 ∈ company_rows ∧ r0 !! 0%nat = Some c0
                                   ∧ strip c0 = canon)
                       ∧ (length canon ≤ length (strip (default [] (r !! 0%nat))))%nat)))
          company_rows
          [[lit "Siemens AG"; lit "a.xlsx"]; [lit "Siemens AG"; lit "a.xlsx"]].
Proof.
  apply (@run_fuzzy_logic_canonical_values (example_runtime 85%float [])
           company_rows [lit "Company"] 0.85%float (lit "Company") 0%nat (lit "Company")).
  - vm_compute. reflexivity.
  - vm_compute. reflexivity.
Defined.

Lemma grouping_heads_fixed_witness :
  lit "Siemens AG" = SCHNEIDER_ELECTRIC
  ∨ default ∅ (@build_mapping (example_runtime 85%float []) (0.85 * 100)%float ∅ close_values)
      !! lit "Siemens AG" = Some (lit "Siemens AG").
Proof.
  apply (@grouping_heads_fixed (example_runtime 85%float []) (0.85 * 100)%float
           close_values _ (lit "Siemens GA")).
  - vm_compute. reflexivity.
  - vm_compute. reflexivity.
Defined.

Lemma prefix_rule_witness :
  ∃ final,
    @build_mapping (example_runtime 0%float []) (0.85 * 100)%float ∅
      ([] ++ [lit "Acme"; lit "Acme Corp"]) = Some final
    ∧ final !! lit "Acme Corp" = Some (lit "Acme")
    ∧ final !! lit "Acme" = Some (lit "Acme").
Proof.
  apply (@prefix_rule (example_runtime 0%float []) (0.85 * 100)%float
           [] [lit "Acme Corp"] (lit "Acme") (lit "Acme Corp") ∅).
  - vm_compute. intros Hin.
    repeat (apply elem_of_cons in Hin as [Hin|Hin]; [discriminate Hin|]).
    by apply elem_of_nil in Hin.
  - apply list_elem_of_here.
  - reflexivity.
  - reflexivity.
  - reflexivity.
  - vm_compute. reflexivity.
  - vm_compute. lia.
  - vm_compute. reflexivity.
  - vm_compute. reflexivity.
Defined.

Lemma community_invalid_template_witness :
  @worker_process_files (example_runtime 0%float mixed_disk) (example_config Community 1)
    [lit "c.xlsx"; lit "plain.xlsx"; lit "c.xlsx"]
  = Failed (InvalidTemplateError (lit "plain.xlsx")).
Proof.
  apply (@community_invalid_template (example_runtime 0%float mixed_disk)
           (example_config Community 1) _ [lit "c.xlsx"] [lit "c.xlsx"] (lit "plain.xlsx")
           (book_of [[T "Name"]; [T "Ann"]])).
  - reflexivity.
  - reflexivity.
  - apply Forall_cons. split; [|apply Forall_nil_2].
    exists community_book. split; vm_compute; reflexivity.
  - reflexivity.
  - vm_compute. reflexivity.
Defined.

Lemma community_tables_provenance_witness :
  (od_set community_tables COMMUNITY_MASTER community_master).*1
  = required ++ [COMMUNITY_MASTER]
  ∧ ∀ sheet t,
      (sheet, t) ∈ od_set community_tables COMMUNITY_MASTER community_master →
      sheet ∈ required →
      NoDup (t_rows t)
      ∧ Forall (λ r, ∃ cells f, f ∈ [lit "c.xlsx"]
                                ∧ r = cells ++ [@basename community_runtime f; sheet])
               (t_rows t).
Proof.
  apply (@community_tables_provenance community_runtime (example_config Community 1)
           [lit "c.xlsx"]).
  - reflexivity.
  - vm_compute. reflexivity.
Defined.

Lemma standard_mode_outcome_witness :
  match @scan (example_runtime 0%float repeated_row_disk) (example_config Standard 1)
          [lit "a.xlsx"] with
  | Raise e =>
      @worker_process_files (example_runtime 0%float repeated_row_disk)
        (example_config Standard 1) [lit "a.xlsx"] = Failed e
  | Ok [] =>
      @worker_process_files (example_runtime 0%float repeated_row_disk)
        (example_config Standard 1) [lit "a.xlsx"] = NoData
  | Ok ((sig, b) :: _) =>
      ∃ t, @worker_process_files (example_runtime 0%float repeated_row_disk)
             (example_config Standard 1) [lit "a.xlsx"] = Done [(lit "Main Table", t)]
           ∧ t_cols t = sig
           ∧ Forall (λ r : list pystr, length r = S (length sig)) (t_rows t)
  end.
Proof.
  apply (@standard_mode_outcome (example_runtime 0%float repeated_row_disk)
           (example_config Standard 1) [lit "a.xlsx"]).
  reflexivity.
Defined.

Lemma finalize_restores_repeated_rows_witness :
  @worker_process_files (example_runtime 0%float repeated_row_disk)
    (example_config Normal 1) [lit "a.xlsx"]
  = Done [(lit "Main Table",
           {| t_cols := [lit "Name"];
              t_rows := [lit "a.xlsx"]
                        ≫= @file_rows_of (example_runtime 0%float repeated_row_disk) 1 |})]
  ∧ [[lit "Ann"; lit "a.xlsx"]]
    = [lit "a.xlsx"]
      ≫= (λ f, unique_rows ∅
                 (@file_rows_of (example_runtime 0%float repeated_row_disk) 1 f)).
Proof.
  apply (@finalize_restores_repeated_rows (example_runtime 0%float repeated_row_disk)
           (example_config Normal 1) [lit "a.xlsx"] [lit "Name"]
           {| b_cols := [lit "Name"]; b_rows := [[lit "Ann"; lit "a.xlsx"]];
              b_files := [lit "a.xlsx"]; b_header_rows := None |}).
  - by right.
  - reflexivity.
  - reflexivity.
  - vm_compute. reflexivity.
Defined.

Lemma extract_headers_columns_witness :
  length (@extract_headers community_runtime
            (sheet_of [[T "Group"; CNone]; [T "Name"; CNone]; [T "Ann"; T "Chair"]]) 2)
  = length [T "Group"; CNone]
  ∧ ∀ c, (c < length [T "Group"; CNone])%nat →
      Forall (λ r : list cell, truthy (default CNone (r !! c)) = false)
             (take 2 ([T "Group"; CNone] :: [[T "Name"; CNone]; [T "Ann"; T "Chair"]])) →
      @extract_headers community_runtime
        (sheet_of [[T "Group"; CNone]; [T "Name"; CNone]; [T "Ann"; T "Chair"]]) 2 !! c
      = Some (lit "Column_" ++ str_Z (Z.of_nat (c + 1))).
Proof.
  apply (@extract_headers_columns community_runtime
           (sheet_of [[T "Group"; CNone]; [T "Name"; CNone]; [T "Ann"; T "Chair"]]) 2
           [T "Group"; CNone] [[T "Name"; CNone]; [T "Ann"; T "Chair"]]).
  - reflexivity.
  - lia.
Defined.


Lemma scan_bucket_files_witness :
  (∀ sig b, (sig, b) ∈ repeated_row_buckets →
     b_files b
     = filter (λ f, @signature_of (example_runtime 0%float repeated_row_disk)
                      (@scan_h_count (example_config Standard 1)) f = Some (Some sig))
              (sorted [lit "a.xlsx"]))
  ∧ (∀ f sig, f ∈ [lit "a.xlsx"] →
       @signature_of (example_runtime 0%float repeated_row_disk)
         (@scan_h_count (example_config Standard 1)) f = Some (Some sig) →
       ∃ b, (sig, b) ∈ repeated_row_buckets ∧ f ∈ b_files b).
Proof.
  apply (@scan_bucket_files (example_runtime 0%float repeated_row_disk)
           (example_config Standard 1) [lit "a.xlsx"]).
  vm_compute. reflexivity.
Defined.

Lemma finalize_export_tables_witness :
  (@finalize_export (example_runtime 0%float repeated_row_disk) (example_config Normal 1)
     (auto_named repeated_row_buckets) = Cancelled
   ↔ auto_named repeated_row_buckets = [])
  ∧ ∀ rebuilt,
      @finalize_export (example_runtime 0%float repeated_row_disk) (example_config Normal 1)
        (auto_named repeated_row_buckets) = Done rebuilt →
      Forall2 (λ (nb : pystr * bucket) (nt : pystr * table),
                 nt.1 = nb.1
                 ∧ @rebuild (example_runtime 0%float repeated_row_disk)
                     (example_config Normal 1) (nb.2) = Some (nt.2))
              (auto_named repeated_row_buckets) rebuilt.
Proof.
  apply (@finalize_export_tables (example_runtime 0%float repeated_row_disk)
           (example_config Normal 1) (auto_named repeated_row_buckets)).
  apply (bool_decide_unpack _). vm_compute. exact I.
Defined.
